(** * Keymaps: the keybinding registry of src/keymaps/index.js

    A shallow embedding of the module returned by [module.exports] and
    of the three collaborators it talks to: the listening engine
    ([keymaster]), the editor model [em] (command registry, editor
    handle, event bus) and the handlers it runs.

    The module is imperative JavaScript, so every method is a
    computation in a small state-and-exception monad over a [World]
    that holds the module's closure variables ([em], [config],
    [keymaps]), the subscriptions held by the listening engine, and a
    chronological trace of the calls made to the collaborators.

    The object [keymaps] is a plain [{}] read with [keymaps[id]]: the
    [gmap] holds its own properties, and a read that finds no own
    property finds what the object inherits from [Object.prototype].
    Handlers are code of the host: what running one does is given by
    a table of computations, which may return, throw, or call back
    into the registry. *)

From stdpp Require Import base option list strings gmap.

Module Keymaps.

Local Open Scope string_scope.
Local Open Scope list_scope.

(** ** JavaScript values held by a handler variable *)

(** The values the [handler] parameter of [add] and the result of
    [cmd.get] range over.  Functions and objects are named; what they
    do when they run is given by a table of handlers (see
    [Handlers]). *)
Inductive value : Type :=
| VString (s : string)      (* a command id *)
| VFunction (f : string)    (* a callable: handler(editor) *)
| VObject (o : string)      (* an object exposing run(editor) *)
| VNull
| VUndefined.

#[global] Instance value_eq_dec : EqDecision value.
Proof. solve_decision. Defined.

(** underscore's [isString]. *)
Definition isString (v : value) : bool :=
  match v with VString _ => true | _ => false end.

(** [typeof v == 'object']; note that [typeof null] is ['object']. *)
Definition typeof_object (v : value) : bool :=
  match v with VObject _ | VNull => true | _ => false end.

(** ** Data model *)

(** The object [{ id, keys, handler }] built by [add]. *)
Record Keymap : Type := mkKeymap {
  km_id : string;
  km_keys : string;
  km_handler : value;
}.

#[global] Instance Keymap_eq_dec : EqDecision Keymap.
Proof. solve_decision. Defined.

(** The property names every plain object inherits from
    [Object.prototype] (ECMAScript, Annex B included). *)
Definition Object_prototype : list string :=
  [ "constructor"; "__defineGetter__"; "__defineSetter__";
    "hasOwnProperty"; "__lookupGetter__"; "__lookupSetter__";
    "isPrototypeOf"; "propertyIsEnumerable"; "toString"; "valueOf";
    "__proto__"; "toLocaleString" ].

Definition inherited (id : string) : bool :=
  bool_decide (id ∈ Object_prototype).

(** What [keymaps[id]] finds when it finds something: a binding stored
    by [add], or the value inherited under that name (the function
    [Object] for [constructor], a method of [Object.prototype], the
    prototype itself for [__proto__]).  Both are truthy; an inherited
    value has no string under [keys]. *)
Inductive Found : Type :=
| FKeymap (km : Keymap)
| FInherited (name : string).

#[global] Instance Found_eq_dec : EqDecision Found.
Proof. solve_decision. Defined.

(** An entry [{ keys, handler }] of [config.defaults]. *)
Record DefaultKeymap : Type := mkDefault {
  def_keys : string;
  def_handler : value;
}.

(** [config.defaults] is an object read with [for (let id in defKeys)];
    the list gives its properties in iteration order. *)
Record Config : Type := mkConfig {
  defaults : list (string * DefaultKeymap);
  cfg_em : bool;
}.

(** The options object handed to [init]: [opt_em] tells whether it
    carries the host's editor model, [opt_defaults] is the caller's
    [defaults] property, when it has one. *)
Record Opts : Type := mkOpts {
  opt_em : bool;
  opt_defaults : option (list (string * DefaultKeymap));
}.

(** The raw keyboard event and the match information ([h.shortcut])
    the listening engine passes to a callback. *)
Definition KeyEvent : Type := nat.
Record MatchInfo : Type := mkMatch { shortcut : string }.

(** The environment of the arrow function passed to [keymaster] in
    [add].  [cb_id] is the captured [id]; [cb_handler] is the captured
    [handler] variable, which the callback assigns to.  The captured
    [cmd], [editor] and [em] are the host's and are read from the world. *)
Record Callback : Type := mkCallback {
  cb_id : string;
  cb_handler : value;
}.

(** A handler held by the listening engine: the chord string it was
    bound under, and the callback. *)
Abbreviation Subscription := (string * Callback)%type.

(** Arguments of [em.trigger]. *)
Inductive Arg : Type :=
| AKeymap (k : Keymap)
| AString (s : string)
| AEvent (e : KeyEvent).

(** Calls carried out by the collaborators, in the order they
    happen. *)
Inductive Effect : Type :=
| Bind (chord : string) (id : string)       (* keymaster(keys, callback) *)
| Unbind (chord : string)                   (* keymaster.unbind(keys) *)
| Trigger (name : string) (args : list Arg) (* em.trigger(name, ...args) *)
| CmdGet (name : string)                    (* cmd.get(handler) *)
| Call (f : string) (editor : nat)          (* handler(editor) *)
| Run (o : string) (editor : nat).          (* handler.run(editor) *)

#[global] Instance Arg_eq_dec : EqDecision Arg.
Proof. solve_decision. Defined.

#[global] Instance Effect_eq_dec : EqDecision Effect.
Proof. solve_decision. Defined.

(** The editor model of the host: its command registry
    ([em.get('Commands')]) and its editor ([em.getEditor()]). *)
Record Em : Type := mkEm {
  Commands : gmap string value;
  Editor : nat;
}.

(** Everything the module reads or writes.  [em] tells whether the
    module's [em] variable (and [this.em]) refers to the host's editor
    model or is still [undefined]; [config] is [None] until [init]. *)
Record World : Type := mkWorld {
  host : Em;
  em : bool;
  config : option Config;
  keymaps : gmap string Keymap;
  keymaster : list Subscription;
  trace : list Effect;
}.

Definition set_host (f : Em → Em) (w : World) : World :=
  mkWorld (f (host w)) (em w) (config w) (keymaps w) (keymaster w) (trace w).
Definition set_em (b : bool) (w : World) : World :=
  mkWorld (host w) b (config w) (keymaps w) (keymaster w) (trace w).
Definition set_config (c : option Config) (w : World) : World :=
  mkWorld (host w) (em w) c (keymaps w) (keymaster w) (trace w).
Definition set_keymaps (f : gmap string Keymap → gmap string Keymap)
    (w : World) : World :=
  mkWorld (host w) (em w) (config w) (f (keymaps w)) (keymaster w) (trace w).
Definition set_keymaster (f : list Subscription → list Subscription)
    (w : World) : World :=
  mkWorld (host w) (em w) (config w) (keymaps w) (f (keymaster w)) (trace w).
Definition set_trace (f : list Effect → list Effect) (w : World) : World :=
  mkWorld (host w) (em w) (config w) (keymaps w) (keymaster w) (f (trace w)).

(** ** The monad: state with JavaScript exceptions *)

Inductive Outcome (A : Type) : Type :=
| Return (a : A)
| Throw (err : string).
Arguments Return {A} a.
Arguments Throw {A} err.

(** A thrown exception keeps the writes made before it. *)
Definition M (A : Type) : Type := World → Outcome A * World.

(** The code of the host behind the handlers: what calling the
    function [VFunction f], or the [run] method of the object
    [VObject o], does.  It is any computation: it may return, throw,
    or call [add], [remove] and the other methods. *)
Definition Handlers : Type := value → M unit.

Definition ret {A} (a : A) : M A := λ w, (Return a, w).
Definition throw {A} (err : string) : M A := λ w, (Throw err, w).
Definition bind {A B} (m : M A) (k : A → M B) : M B :=
  λ w, match m w with
       | (Return a, w') => k a w'
       | (Throw err, w') => (Throw err, w')
       end.
Definition gets {A} (f : World → A) : M A := λ w, (Return (f w), w).
Definition modify (f : World → World) : M unit := λ w, (Return tt, f w).

Declare Scope js_scope.
Delimit Scope js_scope with js.
Notation "'let!' x := m 'in' k" := (bind m (λ x, k))
  (at level 10, x name, m at level 100, k at level 200) : js_scope.
Notation "m ;; k" := (bind m (λ _, k))
  (at level 100, k at level 200, right associativity) : js_scope.
Local Open Scope js_scope.

Definition TypeError : string := "TypeError".

Definition log (e : Effect) : M unit := modify (set_trace (λ t, t ++ [e])).

(** ** Collaborators *)

(** Modelled from the spec: the library [keymaster], which is not part
    of this repository.  [keymaster(keys, callback)] registers the
    callback under the chord string; the engine keeps its callbacks in
    the order they were bound. *)
Definition keymaster_bind (chord : string) (cb : Callback) : M unit :=
  modify (set_keymaster (λ l, l ++ [(chord, cb)])) ;;
  log (Bind chord (cb_id cb)).

(** Modelled from the spec: [keymaster.unbind(keys)] removes all the
    callbacks kept under that chord string.  Chord strings are opaque
    and compared as they are. *)
Definition keymaster_unbind (chord : string) : M unit :=
  modify (set_keymaster (filter (λ s : Subscription, s.1 ≠ chord))) ;;
  log (Unbind chord).

(** Modelled from the spec: the event bus, [em.trigger(name, ...args)],
    fire and forget. *)
Definition trigger (name : string) (args : list Arg) : M unit :=
  log (Trigger name args).

(** The library is not under [src/]: given an argument that is not a
    string, as [keymap.keys] of an inherited value is, its first
    statement ([key.replace]) throws a TypeError before anything is
    unbound. *)
Definition keymaster_unbind_invalid : M unit := throw TypeError.

(** Modelled from the spec: the command registry, [cmd.get(name)],
    gives the command stored under [name], or [undefined]. *)
Definition cmd_get (name : string) : M value :=
  log (CmdGet name) ;;
  gets (λ w, default VUndefined (Commands (host w) !! name)).

(** Registering or replacing a command in the host's command registry;
    done by the host, not by this module. *)
Definition register_command (name : string) (v : value) (w : World) : World :=
  set_host (λ h, mkEm (<[name := v]> (Commands h)) (Editor h)) w.

(** ** The module *)

(** The closure state created by [module.exports = () => { ... }]:
    [em] and [config] undefined, [keymaps = {}]. *)
Definition create (h : Em) : World :=
  mkWorld h false None ∅ [] [].

Definition configDef_defaults : list (string * DefaultKeymap) :=
  [ ("core:undo", mkDefault "⌘+z, ctrl+z" (VString "core:undo"));
    ("core:redo", mkDefault "⌘+shift+z, ctrl+shift+z" (VString "core:redo"));
    ("core:copy", mkDefault "⌘+c, ctrl+c" (VString "core:copy"));
    ("core:paste", mkDefault "⌘+v, ctrl+v" (VString "core:paste")) ].

Definition getConfig : M (option Config) := gets config.

(** [config = { ...configDef, ...opts }; em = config.em; this.em = em]. *)
Definition init (opts : Opts) : M unit :=
  modify (set_config
            (Some (mkConfig (default configDef_defaults (opt_defaults opts))
                            (opt_em opts)))) ;;
  modify (set_em (opt_em opts)).

(** [keymaps[id]]: the own property, else the inherited one, else
    [undefined]. *)
Definition property (w : World) (id : string) : option Found :=
  match keymaps w !! id with
  | Some km => Some (FKeymap km)
  | None => if inherited id then Some (FInherited id) else None
  end.

Definition get (id : string) : M (option Found) :=
  gets (λ w, property w id).

Definition getAll : M (gmap string Keymap) := gets keymaps.

Definition remove (id : string) : M (option Keymap) :=
  let! em := gets em in                     (* const em = this.em *)
  let! keymap := get id in                  (* const keymap = this.get(id) *)
  match keymap with
  | Some (FKeymap keymap) =>                (* if (keymap) *)
      modify (set_keymaps (delete id)) ;;   (* delete keymaps[id] *)
      keymaster_unbind (km_keys keymap) ;;  (* keymaster.unbind(keymap.keys) *)
      (if em : bool                         (* em && em.trigger(...) *)
       then trigger "keymap:remove" [AKeymap keymap]
       else ret tt) ;;
      ret (Some keymap)                     (* return keymap *)
  | Some (FInherited _) =>                  (* if (keymap), inherited value *)
      modify (set_keymaps (delete id)) ;;   (* delete keymaps[id] *)
      keymaster_unbind_invalid ;;           (* keymaster.unbind(keymap.keys) *)
      ret None                              (* not reached *)
  | None => ret None                        (* returns undefined *)
  end.

(** The statement
    [typeof handler == 'object' ? handler.run(editor) : handler(editor)]:
    the call is recorded, then the code of the handler runs. *)
Definition run_handler (B : Handlers) (handler : value) : M unit :=
  let! editor := gets (λ w, Editor (host w)) in
  if typeof_object handler then
    match handler with
    | VObject o => log (Run o editor) ;; B handler
    | _ => throw TypeError          (* null.run *)
    end
  else
    match handler with
    | VFunction f => log (Call f editor) ;; B handler
    | _ => throw TypeError          (* not a function *)
    end.

(** The listening engine calls the callback of its [i]-th
    subscription with the event [e] and the match information [h]:
    the body of the arrow function of [add].  The assignment to the
    captured [handler] is written back to the subscription. *)
Definition invoke (B : Handlers) (i : nat) (e : KeyEvent) (h : MatchInfo) :
    M unit :=
  let! sub := gets (λ w, keymaster w !! i) in
  match sub with
  | None => ret tt
  | Some (chord, cb) =>
      let id := cb_id cb in
      (* handler = isString(handler) ? cmd.get(handler) : handler *)
      let! handler :=
        (if isString (cb_handler cb) then
           match cb_handler cb with
           | VString s => cmd_get s
           | v => ret v
           end
         else ret (cb_handler cb)) in
      modify (set_keymaster (λ l, <[i := (chord, mkCallback id handler)]> l)) ;;
      (* typeof handler == 'object' ? handler.run(editor) : handler(editor) *)
      run_handler B handler ;;
      (* const args = [id, h.shortcut, e] *)
      let args := [AString id; AString (shortcut h); AEvent e] in
      trigger "keymap:emit" args ;;
      trigger ("keymap:emit:" +:+ id) args
  end.

Definition add (id keys : string) (handler : value) : M Keymap :=
  (* const em = this.em *)
  let! em := gets em in
  (* em.get('Commands'), em.getEditor(): a TypeError on undefined *)
  if negb em then throw TypeError
  else
    (* const keymap = { id, keys, handler } *)
    let keymap := mkKeymap id keys handler in
    (* const pk = keymaps[id]; pk && this.remove(id) *)
    let! pk := gets (λ w, property w id) in
    (if pk is Some _ then remove id ;; ret tt else ret tt) ;;
    (* keymaps[id] = keymap *)
    modify (set_keymaps (<[id := keymap]>)) ;;
    (* keymaster(keys, (e, h) => { ... }) *)
    keymaster_bind keys (mkCallback id handler) ;;
    (* em.trigger('keymap:add', keymap); return keymap *)
    trigger "keymap:add" [AKeymap keymap] ;;
    ret keymap.

(** [for (let id in defKeys) this.add(id, value.keys, value.handler)]. *)
Fixpoint add_each (defKeys : list (string * DefaultKeymap)) : M unit :=
  match defKeys with
  | [] => ret tt
  | (id, value) :: rest =>
      add id (def_keys value) (def_handler value) ;;
      add_each rest
  end.

Definition onLoad : M unit :=
  let! config := gets config in
  match config with
  | None => throw TypeError         (* config.defaults on undefined *)
  | Some config => add_each (defaults config)
  end.

(** ** What the trace says *)

(** The event bus seen alone: the [em.trigger] calls of a trace,
    in order. *)
Fixpoint events (t : list Effect) : list (string * list Arg) :=
  match t with
  | [] => []
  | Trigger name args :: t => (name, args) :: events t
  | _ :: t => events t
  end.

(** The payloads of the events of one name. *)
Definition payloads (name : string) (t : list Effect) : list (list Arg) :=
  (filter (λ ev, ev.1 = name) (events t)).*2.

(** What running a resolved handler does: a function is called, an
    object is run, anything else cannot be invoked. *)
Definition invocation (handler : value) (editor : nat) : option Effect :=
  match handler with
  | VFunction f => Some (Call f editor)
  | VObject o => Some (Run o editor)
  | _ => None
  end.

(** The subscriptions the engine holds for a binding. *)
Definition subscriptions_of (id : string) (w : World) : list Subscription :=
  filter (λ s : Subscription, cb_id s.2 = id) (keymaster w).

(** The index of the subscription bound last. *)
Definition newest (w : World) : nat := pred (length (keymaster w)).

(** ** Well-formed registries *)

(** What [init], [add], [remove] and [onLoad] keep true of the
    registry, from its creation on: a binding is stored under
    its own id, every subscription of the engine belongs to a stored
    binding and is kept under that binding's chord string, and no two
    subscriptions belong to one id. *)
Record consistent (w : World) : Prop := mkConsistent {
  stored_under_id :
    ∀ id km, keymaps w !! id = Some km → km_id km = id;
  subscription_bound :
    ∀ chord cb, (chord, cb) ∈ keymaster w →
      ∃ km, keymaps w !! cb_id cb = Some km ∧ km_keys km = chord;
  subscription_unique :
    NoDup ((λ s : Subscription, cb_id s.2) <$> keymaster w);
}.

(** A sequence of [add] calls. *)
Record AddCall : Type := mkAdd {
  call_id : string;
  call_keys : string;
  call_handler : value;
}.

Fixpoint add_all (calls : list AddCall) : M unit :=
  match calls with
  | [] => ret tt
  | c :: rest =>
      add (call_id c) (call_keys c) (call_handler c) ;;
      add_all rest
  end.

(** The most recent call of a sequence that names [id]. *)
Definition last_add (id : string) (calls : list AddCall) : option AddCall :=
  last (filter (λ c, call_id c = id) calls).

(** The value the callback holds in [handler] after its first
    statement, and the registry lookups that statement makes. *)
Definition resolve (w : World) (handler : value) : value :=
  match handler with
  | VString s => default VUndefined (Commands (host w) !! s)
  | v => v
  end.

Definition lookups (handler : value) : list Effect :=
  match handler with
  | VString s => [CmdGet s]
  | _ => []
  end.

Definition emit_args (id : string) (e : KeyEvent) (h : MatchInfo) : list Arg :=
  [AString id; AString (shortcut h); AEvent e].

(** The host puts [cmds] in place of the contents of its command
    registry: any number of commands registered, replaced or dropped. *)
Definition with_commands (cmds : gmap string value) (w : World) : World :=
  set_host (λ h, mkEm cmds (Editor h)) w.

(** The world in which the code of a handler starts to run, when the
    engine fires subscription [i], a callback [cb] kept under [chord]:
    the captured [handler] holds what was resolved and the call [eff]
    has been made. *)
Definition entered (w : World) (i : nat) (chord : string) (cb : Callback)
    (eff : Effect) : World :=
  mkWorld (host w) (em w) (config w) (keymaps w)
    (<[i := (chord, mkCallback (cb_id cb) (resolve w (cb_handler cb)))]>
       (keymaster w))
    (trace w ++ lookups (cb_handler cb) ++ [eff]).

(** What the callback does once the code of the handler has come
    back: on a return it sends the two events, an exception goes
    through. *)
Definition after_handler (id : string) (e : KeyEvent) (h : MatchInfo)
    (r : Outcome unit * World) : Outcome unit * World :=
  match r with
  | (Return _, w') =>
      (Return tt,
       set_trace (λ t, t ++ [Trigger "keymap:emit" (emit_args id e h);
                             Trigger ("keymap:emit:" +:+ id)
                                     (emit_args id e h)]) w')
  | (Throw err, w') => (Throw err, w')
  end.

(** Whether [add id ...] gets as far as storing: the module holds an
    editor model, and [keymaps[id]] is a stored binding or nothing. *)
Definition storable (w : World) (id : string) : bool :=
  em w && (bool_decide (is_Some (keymaps w !! id)) || negb (inherited id)).

(** Every [add] call of a sequence names an id that is not inherited. *)
Definition ordinary_calls (calls : list AddCall) : Prop :=
  Forall (λ c, inherited (call_id c) = false) calls.

Definition ordinary_defaults (d : list (string * DefaultKeymap)) : Prop :=
  Forall (λ p, inherited p.1 = false) d.

(** ** Worlds, handlers and registries used in the examples *)

(** Handlers that return at once; handlers that throw. *)
Definition quiet : Handlers := λ _, ret tt.


(** A registry created and initialised with the host's editor model,
    no command registered yet. *)
Definition initialised : World :=
  (init (mkOpts true None) (create (mkEm ∅ 0))).2.

(** The four bindings [onLoad] makes from [configDef]. *)
Definition default_keymaps : list Keymap :=
  [ mkKeymap "core:undo" "⌘+z, ctrl+z" (VString "core:undo");
    mkKeymap "core:redo" "⌘+shift+z, ctrl+shift+z" (VString "core:redo");
    mkKeymap "core:copy" "⌘+c, ctrl+c" (VString "core:copy");
    mkKeymap "core:paste" "⌘+v, ctrl+v" (VString "core:paste") ].

(** A binding to a command id, fired once while the registry held
    the command [first], the command being replaced by [second]
    afterwards. *)
Definition bound_to_command : World :=
  (add "b" "ctrl+b" (VString "cmd:foo") initialised).2.

Definition fired_once : World :=
  (invoke quiet 0 1 (mkMatch "ctrl+b")
     (register_command "cmd:foo" (VFunction "first") bound_to_command)).2.

Definition command_replaced : World :=
  register_command "cmd:foo" (VFunction "second") fired_once.

(** The same binding fired while [cmd:foo] was not registered, the
    command being registered afterwards. *)
Definition fired_early : World :=
  (invoke quiet 0 1 (mkMatch "ctrl+b") bound_to_command).2.

Definition registered_late : World :=
  register_command "cmd:foo" (VFunction "first") fired_early.

(** The default undo binding, with no command registered under
    [core:undo]. *)
Definition undo_unregistered : World :=
  (add "core:undo" "⌘+z, ctrl+z" (VString "core:undo") initialised).2.

(** ** What [onLoad] asks of [add] *)

(** The [add] calls [onLoad] makes for a [defaults] object. *)
Definition default_calls (d : list (string * DefaultKeymap)) : list AddCall :=
  (λ p, mkAdd p.1 (def_keys p.2) (def_handler p.2)) <$> d.

(** The binding, the subscription and the calls to the collaborators
    that [add] makes for one entry of [defaults] whose id is not
    stored yet. *)
Definition default_keymap (p : string * DefaultKeymap) : Keymap :=
  mkKeymap p.1 (def_keys p.2) (def_handler p.2).

Definition default_subscription (p : string * DefaultKeymap) : Subscription :=
  (def_keys p.2, mkCallback p.1 (def_handler p.2)).

Definition default_effects (p : string * DefaultKeymap) : list Effect :=
  [Bind (def_keys p.2) p.1; Trigger "keymap:add" [AKeymap (default_keymap p)]].

(** A registry holding one binding, and the same registry after a
    second [init] whose options carry no editor model. *)
Definition one_binding : World :=
  (add "a" "ctrl+a" (VFunction "f") initialised).2.

Definition reinitialised_without_em : World :=
  (init (mkOpts false None) one_binding).2.

(** A [defaults] object of the caller. *)
Definition caller_defaults : list (string * DefaultKeymap) :=
  [ ("ns:save", mkDefault "⌘+s, ctrl+s" (VString "ns:save"));
    ("ns:open", mkDefault "⌘+o, ctrl+o" (VFunction "open")) ].

(** ** Equations of the operations *)

(** Unfolds the primitive computations and the field updates. *)
Ltac js_simpl :=
  unfold keymaster_bind, keymaster_unbind, keymaster_unbind_invalid,
    cmd_get, trigger, log,
    bind, ret, throw, gets, modify,
    set_host, set_em, set_config, set_keymaps, set_keymaster, set_trace;
  simpl.

Lemma property_own w id km :
  keymaps w !! id = Some km → property w id = Some (FKeymap km).
Proof. intros Hid. unfold property. by rewrite Hid. Qed.

Lemma property_absent w id :
  keymaps w !! id = None → inherited id = false → property w id = None.
Proof. intros Hid Hinh. unfold property. by rewrite Hid, Hinh. Qed.

Lemma property_inherited w id :
  keymaps w !! id = None → inherited id = true →
  property w id = Some (FInherited id).
Proof. intros Hid Hinh. unfold property. by rewrite Hid, Hinh. Qed.

Lemma delete_nothing w id :
  keymaps w !! id = None → set_keymaps (delete id) w = w.
Proof.
  intros Hid. destruct w. unfold set_keymaps. simpl in *.
  by rewrite delete_id.
Qed.

Lemma remove_absent w id :
  keymaps w !! id = None → inherited id = false →
  remove id w = (Return None, w).
Proof.
  intros Hid Hinh. unfold remove, get, bind, gets. cbv beta.
  by rewrite (property_absent _ _ Hid Hinh).
Qed.

(** On a name that is inherited and not stored, [remove] enters the
    [if], deletes nothing and throws inside [keymaster.unbind]. *)
Lemma remove_inherited w id :
  keymaps w !! id = None → inherited id = true →
  remove id w = (Throw TypeError, w).
Proof.
  intros Hid Hinh. unfold remove, get, bind, gets. cbv beta.
  rewrite (property_inherited _ _ Hid Hinh).
  unfold modify, keymaster_unbind_invalid, throw.
  by rewrite (delete_nothing _ _ Hid).
Qed.

Lemma remove_present w id km :
  keymaps w !! id = Some km →
  remove id w =
    (Return (Some km),
     mkWorld (host w) (em w) (config w) (delete id (keymaps w))
       (filter (λ s : Subscription, s.1 ≠ km_keys km) (keymaster w))
       (if em w
        then trace w ++ [Unbind (km_keys km);
                         Trigger "keymap:remove" [AKeymap km]]
        else trace w ++ [Unbind (km_keys km)])).
Proof.
  intros Hid. unfold remove, get, bind at 1 2, gets. cbv beta.
  rewrite (property_own _ _ _ Hid). js_simpl.
  destruct (em w); js_simpl; [|done].
  by rewrite <- app_assoc.
Qed.

Lemma add_uninitialised w id keys handler :
  em w = false → add id keys handler w = (Throw TypeError, w).
Proof. intros Hem. unfold add, bind, gets. by rewrite Hem. Qed.

Lemma add_fresh w id keys handler :
  em w = true → keymaps w !! id = None → inherited id = false →
  add id keys handler w =
    (Return (mkKeymap id keys handler),
     mkWorld (host w) true (config w)
       (<[id := mkKeymap id keys handler]> (keymaps w))
       (keymaster w ++ [(keys, mkCallback id handler)])
       (trace w ++ [Bind keys id;
                    Trigger "keymap:add" [AKeymap (mkKeymap id keys handler)]])).
Proof.
  intros Hem Hid Hinh. unfold add.
  unfold bind at 1, gets at 1. rewrite Hem. simpl.
  unfold bind at 1, gets at 1. rewrite (property_absent _ _ Hid Hinh).
  js_simpl. by rewrite Hem, <- app_assoc.
Qed.

(** On a name that is inherited and not stored, [add] finds a truthy
    [pk], runs [remove] and throws there: nothing is stored, bound or
    emitted. *)
Lemma add_inherited w id keys handler :
  em w = true → keymaps w !! id = None → inherited id = true →
  add id keys handler w = (Throw TypeError, w).
Proof.
  intros Hem Hid Hinh. unfold add.
  unfold bind at 1, gets at 1. rewrite Hem. simpl.
  unfold bind at 1, gets at 1. rewrite (property_inherited _ _ Hid Hinh).
  do 2 unfold bind at 1. by rewrite (remove_inherited _ _ Hid Hinh).
Qed.

Lemma add_supersede w id keys handler pk :
  em w = true → keymaps w !! id = Some pk →
  add id keys handler w =
    (Return (mkKeymap id keys handler),
     mkWorld (host w) true (config w)
       (<[id := mkKeymap id keys handler]> (delete id (keymaps w)))
       (filter (λ s : Subscription, s.1 ≠ km_keys pk) (keymaster w)
          ++ [(keys, mkCallback id handler)])
       (trace w ++ [Unbind (km_keys pk);
                    Trigger "keymap:remove" [AKeymap pk];
                    Bind keys id;
                    Trigger "keymap:add" [AKeymap (mkKeymap id keys handler)]])).
Proof.
  intros Hem Hid. unfold add.
  unfold bind at 1, gets at 1. rewrite Hem. simpl.
  unfold bind at 1, gets at 1. rewrite (property_own _ _ _ Hid).
  do 2 unfold bind at 1. rewrite (remove_present _ _ _ Hid), Hem.
  js_simpl. by rewrite <- !app_assoc.
Qed.

Lemma init_eq opts w :
  init opts w =
    (Return tt,
     mkWorld (host w) (opt_em opts)
       (Some (mkConfig (default configDef_defaults (opt_defaults opts))
                       (opt_em opts)))
       (keymaps w) (keymaster w) (trace w)).
Proof. done. Qed.

Lemma invoke_unbound B w i e h :
  keymaster w !! i = None → invoke B i e h w = (Return tt, w).
Proof. intros Hi. unfold invoke, bind, gets. cbv beta. by rewrite Hi. Qed.

(** A firing that reaches a callable or run-capable handler: the
    handler's code runs in [entered], and the callback goes on as
    [after_handler] says. *)
Lemma invoke_runs B w i chord cb e h eff :
  keymaster w !! i = Some (chord, cb) →
  invocation (resolve w (cb_handler cb)) (Editor (host w)) = Some eff →
  invoke B i e h w =
    after_handler (cb_id cb) e h
      (B (resolve w (cb_handler cb)) (entered w i chord cb eff)).
Proof.
  intros Hi Hrun. unfold invoke.
  unfold bind at 1, gets at 1. cbv beta. rewrite Hi.
  unfold after_handler, entered.
  destruct cb as [id [s|f|o| |]]; simpl in *; unfold run_handler;
    js_simpl; try destruct (Commands (host w) !! s) as [[]|];
    simplify_eq/=; rewrite <- ?app_assoc; simpl;
    destruct (B _ _) as [[[]|err] w']; simpl; by rewrite <- ?app_assoc.
Qed.

Lemma invoke_throws B w i chord cb e h :
  keymaster w !! i = Some (chord, cb) →
  invocation (resolve w (cb_handler cb)) (Editor (host w)) = None →
  invoke B i e h w =
    (Throw TypeError,
     mkWorld (host w) (em w) (config w) (keymaps w)
       (<[i := (chord, mkCallback (cb_id cb) (resolve w (cb_handler cb)))]>
          (keymaster w))
       (trace w ++ lookups (cb_handler cb))).
Proof.
  intros Hi Hrun. unfold invoke.
  unfold bind at 1, gets at 1. cbv beta. rewrite Hi.
  destruct cb as [id [s|f|o| |]]; simpl in *; unfold run_handler;
    js_simpl; try destruct (Commands (host w) !! s) as [[]|];
    simplify_eq/=; by rewrite ?app_nil_r.
Qed.

(** ** The registry stays well formed *)

Section Consistency.

Implicit Types (w : World) (id chord : string) (cb : Callback).

Lemma create_consistent h : consistent (create h).
Proof.
  split; simpl.
  - intros id km. by rewrite lookup_empty.
  - intros chord cb Hin. by apply elem_of_nil in Hin.
  - constructor.
Qed.

Lemma init_consistent opts w : consistent w → consistent (init opts w).2.
Proof. intros [H1 H2 H3]. by split. Qed.

Lemma register_command_consistent name v w :
  consistent w → consistent (register_command name v w).
Proof. intros [H1 H2 H3]. by split. Qed.

(** A subscription that survives the unbind of [id]'s chord string
    belongs to another binding. *)
Lemma survivor_not_owned w id pk chord cb :
  consistent w → keymaps w !! id = Some pk →
  (chord, cb) ∈ keymaster w → chord ≠ km_keys pk → cb_id cb ≠ id.
Proof.
  intros Hw Hid Hin Hne <-.
  destruct (subscription_bound w Hw chord cb Hin) as (km & Hkm & Hchord).
  congruence.
Qed.

Lemma absent_not_owned w id chord cb :
  consistent w → keymaps w !! id = None →
  (chord, cb) ∈ keymaster w → cb_id cb ≠ id.
Proof.
  intros Hw Hid Hin <-.
  destruct (subscription_bound w Hw chord cb Hin) as (km & Hkm & _).
  congruence.
Qed.

Lemma NoDup_owner_filter (P : Subscription → Prop) `{!∀ s, Decision (P s)}
    (l : list Subscription) :
  NoDup ((λ s : Subscription, cb_id s.2) <$> l) →
  NoDup ((λ s : Subscription, cb_id s.2) <$> filter P l).
Proof.
  intros Hl. eapply sublist_NoDup; [exact Hl|].
  apply fmap_sublist, sublist_filter.
Qed.

Lemma remove_consistent id w : consistent w → consistent (remove id w).2.
Proof.
  intros Hw. destruct (keymaps w !! id) as [pk|] eqn:Hid.
  2: { destruct (inherited id) eqn:Hinh;
         [by rewrite remove_inherited|by rewrite remove_absent]. }
  rewrite (remove_present _ _ _ Hid). simpl. split; simpl.
  - intros id' km Hkm. apply lookup_delete_Some in Hkm as [_ Hkm].
    by apply (stored_under_id w Hw).
  - intros chord cb [Hne Hin]%list_elem_of_filter. simpl in Hne.
    destruct (subscription_bound w Hw chord cb Hin) as (km & Hkm & Hchord).
    exists km. split; [|done].
    rewrite lookup_delete_ne; [done|].
    intros Heq. by apply (survivor_not_owned w id pk chord cb).
  - apply NoDup_owner_filter, (subscription_unique w Hw).
Qed.

Lemma add_consistent id keys handler w :
  consistent w → consistent (add id keys handler w).2.
Proof.
  intros Hw. destruct (em w) eqn:Hem.
  2: { by rewrite add_uninitialised. }
  destruct (keymaps w !! id) as [pk|] eqn:Hid.
  - rewrite (add_supersede _ _ _ _ pk Hem Hid). simpl. split; simpl.
    + intros id' km. rewrite insert_delete_eq, lookup_insert.
      case_decide; [by intros [= <-]; subst|]. apply (stored_under_id w Hw).
    + intros chord cb [Hin|[= -> ->]%list_elem_of_singleton]%elem_of_app.
      * apply list_elem_of_filter in Hin as [Hne Hin]. simpl in Hne.
        destruct (subscription_bound w Hw chord cb Hin)
          as (km & Hkm & Hchord).
        exists km. split; [|done].
        rewrite insert_delete_eq, lookup_insert_ne; [done|].
        intros Heq. by apply (survivor_not_owned w id pk chord cb).
      * eexists. by rewrite lookup_insert_eq.
    + rewrite fmap_app. apply NoDup_app. split_and!.
      * apply NoDup_owner_filter, (subscription_unique w Hw).
      * intros x [[chord cb] [-> Hin]]%list_elem_of_fmap.
        apply list_elem_of_filter in Hin as [Hne Hin]. simpl in *.
        intros Heq%list_elem_of_singleton.
        by apply (survivor_not_owned w id pk chord cb).
      * apply NoDup_singleton.
  - destruct (inherited id) eqn:Hinh; [by rewrite add_inherited|].
    rewrite (add_fresh _ _ _ _ Hem Hid Hinh). simpl. split; simpl.
    + intros id' km. rewrite lookup_insert.
      case_decide; [by intros [= <-]; subst|]. apply (stored_under_id w Hw).
    + intros chord cb [Hin|[= -> ->]%list_elem_of_singleton]%elem_of_app.
      * destruct (subscription_bound w Hw chord cb Hin)
          as (km & Hkm & Hchord).
        exists km. split; [|done].
        rewrite lookup_insert_ne; [done|].
        intros Heq. by apply (absent_not_owned w id chord cb).
      * eexists. by rewrite lookup_insert_eq.
    + rewrite fmap_app. apply NoDup_app. split_and!.
      * apply (subscription_unique w Hw).
      * intros x [[chord cb] [-> Hin]]%list_elem_of_fmap. simpl.
        intros Heq%list_elem_of_singleton.
        by apply (absent_not_owned w id chord cb).
      * apply NoDup_singleton.
Qed.

Lemma add_all_consistent calls w :
  consistent w → consistent (add_all calls w).2.
Proof.
  revert w. induction calls as [|c calls IH]; intros w Hw; [done|].
  simpl. unfold bind.
  pose proof (add_consistent (call_id c) (call_keys c) (call_handler c) w Hw)
    as Hadd.
  destruct (add _ _ _ w) as [[km|err] w1]; simpl in *; [by apply IH|done].
Qed.

End Consistency.

(** ** Sequences of [add] calls *)

Lemma add_returns w id keys handler :
  em w = true → inherited id = false →
  ∃ w', add id keys handler w = (Return (mkKeymap id keys handler), w') ∧
        host w' = host w ∧ em w' = true ∧ config w' = config w ∧
        keymaps w' = <[id := mkKeymap id keys handler]> (keymaps w).
Proof.
  intros Hem Hinh. destruct (keymaps w !! id) as [pk|] eqn:Hid.
  - eexists. split; [by apply (add_supersede _ _ _ _ pk)|]. simpl.
    by rewrite insert_delete_eq.
  - eexists. split; [by apply add_fresh|]. done.
Qed.

Lemma last_add_cons id c calls :
  last_add id (c :: calls) =
    match last_add id calls with
    | Some c' => Some c'
    | None => if decide (call_id c = id) then Some c else None
    end.
Proof.
  unfold last_add. rewrite filter_cons.
  destruct (decide (call_id c = id)); [|by destruct (last _)].
  apply last_cons.
Qed.

Lemma add_all_returns calls w :
  em w = true → ordinary_calls calls →
  ∃ w', add_all calls w = (Return tt, w') ∧ em w' = true ∧
        ∀ id, keymaps w' !! id =
                match last_add id calls with
                | Some c => Some (mkKeymap id (call_keys c) (call_handler c))
                | None => keymaps w !! id
                end.
Proof.
  revert w. induction calls as [|c calls IH]; intros w Hem Hord.
  { by exists w. }
  apply Forall_cons in Hord as [Hc Hord].
  destruct (add_returns w (call_id c) (call_keys c) (call_handler c) Hem Hc)
    as (w1 & Hadd & _ & Hem1 & _ & Hmap1).
  destruct (IH w1 Hem1 Hord) as (w' & Hrun & Hem' & Hlast).
  exists w'. split_and!; [|done|].
  { simpl. unfold bind. by rewrite Hadd. }
  intros id. rewrite Hlast, last_add_cons, Hmap1.
  destruct (last_add id calls); [done|].
  rewrite lookup_insert. by case_decide; subst.
Qed.

Lemma filter_none {A} (P : A → Prop) `{!∀ x, Decision (P x)} (l : list A) :
  (∀ x, x ∈ l → ¬ P x) → filter P l = [].
Proof.
  induction l as [|a l IH]; intros Hl; [done|].
  rewrite filter_cons_False; [|apply Hl; left].
  apply IH. intros x Hx. apply Hl. by right.
Qed.

(** When no two subscriptions belong to one id, a binding has at most
    one of them. *)
Lemma owner_at_most_one (l : list Subscription) id :
  NoDup ((λ s : Subscription, cb_id s.2) <$> l) →
  (length (filter (λ s : Subscription, cb_id s.2 = id) l) ≤ 1)%nat.
Proof.
  induction l as [|s l IH]; simpl; [lia|].
  intros [Hs Hl]%NoDup_cons. rewrite filter_cons.
  case_decide as Heq; [|by apply IH].
  rewrite filter_none; [simpl; lia|].
  intros s' Hin Hs'. apply Hs, list_elem_of_fmap. exists s'.
  split; [congruence|done].
Qed.

Lemma events_app t1 t2 : events (t1 ++ t2) = events t1 ++ events t2.
Proof.
  induction t1 as [|[] t1 IH]; simpl; by rewrite ?IH.
Qed.

Lemma payloads_app name t1 t2 :
  payloads name (t1 ++ t2) = payloads name t1 ++ payloads name t2.
Proof. unfold payloads. by rewrite events_app, filter_app, fmap_app. Qed.



Lemma initialised_consistent : consistent initialised.
Proof. apply init_consistent, create_consistent. Qed.

(** ** What [add] leaves in the engine and in the trace *)

Lemma newest_snoc (l : list Subscription) s :
  (l ++ [s]) !! pred (length (l ++ [s])) = Some s.
Proof.
  rewrite length_app, Nat.add_1_r. simpl.
  by rewrite lookup_app_r, Nat.sub_diag.
Qed.

(** [add] binds the callback last, with the handler it was given, and
    makes no lookup in the command registry. *)
Lemma add_installs w id keys handler :
  em w = true → inherited id = false →
  ∃ w1 t,
    add id keys handler w = (Return (mkKeymap id keys handler), w1) ∧
    host w1 = host w ∧
    keymaster w1 !! newest w1 = Some (keys, mkCallback id handler) ∧
    trace w1 = trace w ++ t ∧
    ∀ name, CmdGet name ∉ t.
Proof.
  intros Hem Hinh. destruct (keymaps w !! id) as [pk|] eqn:Hid.
  - eexists _, _. split; [by apply (add_supersede _ _ _ _ pk)|].
    unfold newest. simpl. split_and!; [done|apply newest_snoc|done|].
    intros name Hin. by repeat (apply elem_of_cons in Hin as [?|Hin];
      [done|]); apply elem_of_nil in Hin.
  - eexists _, _. split; [by apply add_fresh|].
    unfold newest. simpl. split_and!; [done|apply newest_snoc|done|].
    intros name Hin. by repeat (apply elem_of_cons in Hin as [?|Hin];
      [done|]); apply elem_of_nil in Hin.
Qed.

(** * Names inherited from [Object.prototype] *)

(** C1 fails on the code at an inherited name: on an initialised
    registry the sequence made of the one call
    [add('constructor', 'ctrl+a', f)] throws a TypeError, and the map
    returned by [getAll] holds no binding under [constructor],
    although that call is the most recent [add] of the id. *)
Theorem last_add_of_inherited_id_not_stored :
  add_all [mkAdd "constructor" "ctrl+a" (VFunction "f")] initialised
    = (Throw TypeError, initialised) ∧
  last_add "constructor" [mkAdd "constructor" "ctrl+a" (VFunction "f")]
    = Some (mkAdd "constructor" "ctrl+a" (VFunction "f")) ∧
  getAll initialised = (Return (keymaps initialised), initialised) ∧
  keymaps initialised !! "constructor" = None.
Proof. split_and!; vm_compute; reflexivity. Qed.

(** C2 fails on the code at an inherited name: on an initialised
    registry [add('constructor', 'ctrl+a', f)] and then
    [add('constructor', 'ctrl+b', g)] both throw a TypeError, and
    [get('constructor')] returns the inherited value, not the binding
    of the second call. *)
Theorem second_add_of_inherited_id_rejected :
  add "constructor" "ctrl+a" (VFunction "f") initialised
    = (Throw TypeError, initialised) ∧
  add "constructor" "ctrl+b" (VFunction "g") initialised
    = (Throw TypeError, initialised) ∧
  get "constructor" initialised
    = (Return (Some (FInherited "constructor")), initialised).
Proof. split_and!; vm_compute; reflexivity. Qed.

(** C5 fails on the code at an inherited name: with a binding [a]
    subscribed under ['ctrl+a'], [add('constructor', 'ctrl+a', g)] and
    then [remove('constructor')] both throw inside [keymaster.unbind],
    which is given the inherited value's [keys] and not a chord string,
    and the subscription under ['ctrl+a'] is still there. *)
Theorem inherited_id_round_trip_leaves_subscription :
  add "constructor" "ctrl+a" (VFunction "g") one_binding
    = (Throw TypeError, one_binding) ∧
  remove "constructor" one_binding = (Throw TypeError, one_binding) ∧
  keymaster one_binding = [("ctrl+a", mkCallback "a" (VFunction "f"))].
Proof. split_and!; vm_compute; reflexivity. Qed.

(** C9 fails on the code at an inherited name: on an initialised
    registry [add('constructor', 'ctrl+a', f)] returns no binding (it
    throws a TypeError), stores none and emits no [keymap:add]. *)
Theorem add_of_inherited_id_stores_nothing :
  (add "constructor" "ctrl+a" (VFunction "f") initialised).1
    = Throw TypeError ∧
  keymaps (add "constructor" "ctrl+a" (VFunction "f") initialised).2
    !! "constructor" = None ∧
  payloads "keymap:add"
    (trace (add "constructor" "ctrl+a" (VFunction "f") initialised).2) = [].
Proof. split_and!; vm_compute; reflexivity. Qed.

(** C10 fails on the code at an inherited name: [constructor] is not
    stored in the initialised registry, yet [add] of it takes the
    supersession path, throws, and the event bus receives nothing, no
    [keymap:add] either. *)
Theorem add_of_fresh_inherited_id_emits_nothing :
  keymaps initialised !! "constructor" = None ∧
  (add "constructor" "ctrl+a" (VFunction "f") initialised).1
    = Throw TypeError ∧
  events (trace (add "constructor" "ctrl+a" (VFunction "f") initialised).2)
    = [].
Proof. split_and!; vm_compute; reflexivity. Qed.

(** * Removal *)

(** C7, as stated, fails: in a registry initialised again without
    editor model the id [a] is stored, [remove] deletes it, unbinds
    its keys and returns the binding, and no [keymap:remove] is
    emitted. *)
Lemma remove_emits_counterexample :
  keymaps reinitialised_without_em !! "a"
    = Some (mkKeymap "a" "ctrl+a" (VFunction "f")) ∧
  (remove "a" reinitialised_without_em).1
    = Return (Some (mkKeymap "a" "ctrl+a" (VFunction "f"))) ∧
  trace (remove "a" reinitialised_without_em).2
    = trace reinitialised_without_em ++ [Unbind "ctrl+a"] ∧
  payloads "keymap:remove" (trace (remove "a" reinitialised_without_em).2)
    = [].
Proof. split_and!; vm_compute; reflexivity. Qed.

(** C7, amended.  [remove id] on an id that is neither stored in the
    map nor a name the map inherits returns nothing and changes
    nothing: the map, the engine and the trace (hence no unbind and no
    [keymap:remove]) are as before.  On an id that the map stores it
    deletes the entry, unbinds the binding's [keys] and returns that
    binding; it emits [keymap:remove] with the removed binding when the
    module holds an editor model, and emits nothing when it holds
    none. *)
Theorem remove_spec (w : World) (id : string) :
  (keymaps w !! id = None → inherited id = false →
     remove id w = (Return None, w)) ∧
  (∀ km, keymaps w !! id = Some km →
     ∃ w',
       remove id w = (Return (Some km), w') ∧
       keymaps w' = delete id (keymaps w) ∧
       keymaster w' =
         filter (λ s : Subscription, s.1 ≠ km_keys km) (keymaster w) ∧
       (em w = true →
          trace w' =
            trace w ++ [Unbind (km_keys km);
                        Trigger "keymap:remove" [AKeymap km]]) ∧
       (em w = false → trace w' = trace w ++ [Unbind (km_keys km)]) ∧
       host w' = host w ∧ em w' = em w ∧ config w' = config w).
Proof.
  split; [apply remove_absent|].
  intros km Hid. eexists. split; [by apply remove_present|].
  simpl. split_and!; try done; by intros ->.
Qed.

Lemma remove_spec_witness :
  remove "missing" initialised = (Return None, initialised) ∧
  ∃ w',
    remove "a" one_binding
      = (Return (Some (mkKeymap "a" "ctrl+a" (VFunction "f"))), w') ∧
    keymaps w' = ∅ ∧ keymaster w' = [] ∧
    trace w' =
      trace one_binding ++
      [Unbind "ctrl+a";
       Trigger "keymap:remove"
         [AKeymap (mkKeymap "a" "ctrl+a" (VFunction "f"))]].
Proof.
  split.
  - apply (proj1 (remove_spec initialised "missing")); reflexivity.
  - destruct (proj2 (remove_spec one_binding "a")
                (mkKeymap "a" "ctrl+a" (VFunction "f")) eq_refl)
      as (w' & Hrem & Hmap & Hsubs & Htrace & _).
    exists w'. split_and!; [done| | |by apply Htrace].
    + rewrite Hmap. vm_compute. reflexivity.
    + rewrite Hsubs. vm_compute. reflexivity.
Defined.

(** * Default bindings *)

(** C8. Creating the module installs nothing and [init] installs
    nothing: it leaves the map, the engine and the trace as they are.
    After [init] with the host's editor model and no [defaults] of the
    caller, [onLoad] returns and the registry holds exactly the four
    default bindings, each with the chord string of [configDef] and
    with the string equal to its own id as handler; they are installed
    by [add] in the order undo, redo, copy, paste. *)
Theorem default_seeding (h : Em) :
  keymaps (create h) = ∅ ∧ keymaster (create h) = [] ∧
  (∀ opts w,
     keymaps (init opts w).2 = keymaps w ∧
     keymaster (init opts w).2 = keymaster w ∧
     trace (init opts w).2 = trace w) ∧
  ∃ w1 w2,
    init (mkOpts true None) (create h) = (Return tt, w1) ∧
    onLoad w1 = (Return tt, w2) ∧
    onLoad w1 = add_each configDef_defaults w1 ∧
    keymaps w2 = list_to_map ((λ km, (km_id km, km)) <$> default_keymaps) ∧
    size (keymaps w2) = 4%nat ∧
    get "core:undo" w2 =
      (Return (Some (FKeymap (mkKeymap "core:undo" "⌘+z, ctrl+z"
                                (VString "core:undo")))), w2) ∧
    get "core:redo" w2 =
      (Return (Some (FKeymap (mkKeymap "core:redo"
                                "⌘+shift+z, ctrl+shift+z"
                                (VString "core:redo")))), w2) ∧
    get "core:copy" w2 =
      (Return (Some (FKeymap (mkKeymap "core:copy" "⌘+c, ctrl+c"
                                (VString "core:copy")))), w2) ∧
    get "core:paste" w2 =
      (Return (Some (FKeymap (mkKeymap "core:paste" "⌘+v, ctrl+v"
                                (VString "core:paste")))), w2) ∧
    trace w2 =
      flat_map (λ km, [Bind (km_keys km) (km_id km);
                       Trigger "keymap:add" [AKeymap km]]) default_keymaps.
Proof.
  split_and!; [done|done|done|].
  eexists _, _. split; [reflexivity|].
  split; [vm_compute; reflexivity|].
  split_and!; vm_compute; reflexivity.
Qed.

(** * Firing *)

(** C3 fails on the code: the callback assigns what it resolved to
    the captured [handler], so with the command replaced between two
    firings the second firing makes no lookup and calls the command
    resolved by the first one, not the replacement. *)
Theorem resolution_at_every_firing_counterexample :
  keymaps command_replaced !! "b"
    = Some (mkKeymap "b" "ctrl+b" (VString "cmd:foo")) ∧
  Commands (host command_replaced) !! "cmd:foo" = Some (VFunction "second") ∧
  trace (invoke quiet 0 2 (mkMatch "ctrl+b") command_replaced).2 =
    trace command_replaced ++
    [Call "first" 0;
     Trigger "keymap:emit" [AString "b"; AString "ctrl+b"; AEvent 2];
     Trigger "keymap:emit:b" [AString "b"; AString "ctrl+b"; AEvent 2]] ∧
  Call "second" 0
    ∉ trace (invoke quiet 0 2 (mkMatch "ctrl+b") command_replaced).2.
Proof.
  split_and!; [vm_compute; reflexivity..|].
  apply (bool_decide_unpack _). vm_compute. exact I.
Qed.

(** C4 fails on the code: the chord of a binding to [cmd:foo] fires
    while the command is not registered (a TypeError); the command is
    registered afterwards; the first firing after that makes no
    lookup, throws a TypeError again and does not run the command. *)
Theorem registration_after_early_firing_ignored :
  (invoke quiet 0 1 (mkMatch "ctrl+b") bound_to_command).1
    = Throw TypeError ∧
  Commands (host registered_late) !! "cmd:foo" = Some (VFunction "first") ∧
  invoke quiet 0 2 (mkMatch "ctrl+b") registered_late
    = (Throw TypeError, registered_late) ∧
  Call "first" 0 ∉ trace registered_late.
Proof.
  split_and!; [vm_compute; reflexivity..|].
  apply (bool_decide_unpack _). vm_compute. exact I.
Qed.




(** * Beyond the claims *)

(** ** What [add] and [remove] do to the map, for every id *)

Lemma add_map w id keys handler :
  keymaps (add id keys handler w).2 =
    (if storable w id
     then <[id := mkKeymap id keys handler]> (keymaps w)
     else keymaps w) ∧
  em (add id keys handler w).2 = em w.
Proof.
  unfold storable. destruct (em w) eqn:Hem; simpl.
  2: { by rewrite add_uninitialised. }
  destruct (keymaps w !! id) as [pk|] eqn:Hid.
  - rewrite (add_supersede _ _ _ _ pk Hem Hid). simpl.
    by rewrite insert_delete_eq.
  - destruct (inherited id) eqn:Hinh; simpl.
    + by rewrite add_inherited.
    + by rewrite add_fresh.
Qed.

Lemma remove_map w id : keymaps (remove id w).2 = delete id (keymaps w).
Proof.
  destruct (keymaps w !! id) as [pk|] eqn:Hid.
  - by rewrite (remove_present _ _ _ Hid).
  - rewrite delete_id by done.
    destruct (inherited id) eqn:Hinh;
      [by rewrite remove_inherited|by rewrite remove_absent].
Qed.

(** ** Calls before [init], and after an [init] without editor model *)

Lemma add_each_uninitialised d w :
  em w = false → d ≠ [] → add_each d w = (Throw TypeError, w).
Proof.
  intros Hem Hd. destruct d as [|[id v] d]; [done|].
  simpl. unfold bind. by rewrite add_uninitialised.
Qed.

(** X1. Without an editor model ([init] not called yet, or called with
    options that carry none) [add] throws a TypeError and stores,
    binds and emits nothing.  [onLoad] throws a TypeError and changes
    nothing when [init] was never called, and also when [init] was
    called without editor model and [defaults] has an entry; with an
    empty [defaults] it returns and changes nothing. *)
Theorem calls_without_editor_model (w : World) :
  (em w = false →
     ∀ id keys handler, add id keys handler w = (Throw TypeError, w)) ∧
  (config w = None → onLoad w = (Throw TypeError, w)) ∧
  (em w = false → ∀ c, config w = Some c → defaults c ≠ [] →
     onLoad w = (Throw TypeError, w)) ∧
  (∀ c, config w = Some c → defaults c = [] → onLoad w = (Return tt, w)).
Proof.
  split_and!.
  - intros Hem id keys handler. by apply add_uninitialised.
  - intros Hc. unfold onLoad, bind, gets. by rewrite Hc.
  - intros Hem c Hc Hd. unfold onLoad, bind, gets. rewrite Hc.
    by apply add_each_uninitialised.
  - intros c Hc Hd. unfold onLoad, bind, gets. by rewrite Hc, Hd.
Qed.

Lemma calls_without_editor_model_witness :
  add "a" "ctrl+a" (VFunction "f") (create (mkEm ∅ 0))
    = (Throw TypeError, create (mkEm ∅ 0)) ∧
  onLoad (create (mkEm ∅ 0)) = (Throw TypeError, create (mkEm ∅ 0)) ∧
  onLoad (init (mkOpts false None) (create (mkEm ∅ 0))).2
    = (Throw TypeError, (init (mkOpts false None) (create (mkEm ∅ 0))).2) ∧
  onLoad (init (mkOpts false (Some [])) (create (mkEm ∅ 0))).2
    = (Return tt, (init (mkOpts false (Some [])) (create (mkEm ∅ 0))).2).
Proof.
  split_and!.
  - apply (proj1 (calls_without_editor_model (create (mkEm ∅ 0)))).
    reflexivity.
  - apply (proj1 (proj2 (calls_without_editor_model (create (mkEm ∅ 0))))).
    reflexivity.
  - eapply (proj1 (proj2 (proj2 (calls_without_editor_model
              (init (mkOpts false None) (create (mkEm ∅ 0))).2))));
      [reflexivity|reflexivity|discriminate].
  - eapply (proj2 (proj2 (proj2 (calls_without_editor_model
              (init (mkOpts false (Some [])) (create (mkEm ∅ 0))).2))));
      reflexivity.
Defined.

(** X2. [remove] works without editor model: on a stored id it deletes
    the entry, unbinds the binding's [keys] and returns the binding,
    and the event bus hears nothing. *)
Theorem remove_without_editor_model (w : World) (id : string) (km : Keymap) :
  em w = false →
  keymaps w !! id = Some km →
  ∃ w',
    remove id w = (Return (Some km), w') ∧
    keymaps w' = delete id (keymaps w) ∧
    keymaster w' = filter (λ s : Subscription, s.1 ≠ km_keys km) (keymaster w) ∧
    trace w' = trace w ++ [Unbind (km_keys km)] ∧
    events (trace w') = events (trace w).
Proof.
  intros Hem Hid. eexists. split; [by apply remove_present|].
  simpl. rewrite Hem. split_and!; [done..|].
  rewrite events_app. simpl. apply app_nil_r.
Qed.

Lemma remove_without_editor_model_witness :
  em reinitialised_without_em = false ∧
  ∃ w',
    remove "a" reinitialised_without_em
      = (Return (Some (mkKeymap "a" "ctrl+a" (VFunction "f"))), w') ∧
    keymaps w' = ∅ ∧ keymaster w' = [] ∧
    events (trace w') = events (trace reinitialised_without_em).
Proof.
  split; [reflexivity|].
  destruct (remove_without_editor_model reinitialised_without_em "a"
              (mkKeymap "a" "ctrl+a" (VFunction "f")) eq_refl eq_refl)
    as (w' & Hrem & Hmap & Hsubs & _ & Hev).
  exists w'. split_and!; [done| | |done].
  - rewrite Hmap. vm_compute. reflexivity.
  - rewrite Hsubs. vm_compute. reflexivity.
Defined.

(** ** Inherited names *)

(** X15. For a name the map inherits from [Object.prototype] and does
    not store, [get] returns the inherited value, [remove] throws a
    TypeError and changes nothing, and [add], on an initialised
    registry, throws a TypeError and stores, binds and emits
    nothing. *)
Theorem inherited_names (w : World) (id : string) :
  inherited id = true →
  keymaps w !! id = None →
  get id w = (Return (Some (FInherited id)), w) ∧
  remove id w = (Throw TypeError, w) ∧
  (em w = true →
     ∀ keys handler, add id keys handler w = (Throw TypeError, w)).
Proof.
  intros Hinh Hid. split_and!.
  - unfold get, gets. by rewrite property_inherited.
  - by apply remove_inherited.
  - intros Hem keys handler. by apply add_inherited.
Qed.

Lemma inherited_names_witness :
  inherited "toString" = true ∧
  keymaps one_binding !! "toString" = None ∧
  get "toString" one_binding
    = (Return (Some (FInherited "toString")), one_binding) ∧
  remove "toString" one_binding = (Throw TypeError, one_binding) ∧
  add "toString" "ctrl+t" (VFunction "t") one_binding
    = (Throw TypeError, one_binding).
Proof.
  split; [reflexivity|]. split; [reflexivity|].
  destruct (inherited_names one_binding "toString" eq_refl eq_refl)
    as (Hget & Hrem & Hadd).
  split_and!; [exact Hget|exact Hrem|by apply Hadd].
Defined.

(** ** [remove] and [add] on the map *)

(** X3. [remove] of an id that is not an inherited name is idempotent:
    whatever the first [remove id] did, a second one returns nothing
    and changes nothing. *)
Theorem remove_twice (w : World) (id : string) :
  inherited id = false →
  remove id (remove id w).2 = (Return None, (remove id w).2).
Proof.
  intros Hinh. apply remove_absent; [|done].
  rewrite remove_map. apply lookup_delete_eq.
Qed.

Lemma remove_twice_witness :
  inherited "a" = false ∧
  remove "a" (remove "a" one_binding).2
    = (Return None, (remove "a" one_binding).2).
Proof.
  split; [reflexivity|]. by apply (remove_twice one_binding "a").
Defined.

(** X4. [add] and [remove] of one id leave the bindings stored under
    every other id as they are, whether the call returns or throws. *)
Theorem other_ids_untouched (w : World) (id id' keys : string)
    (handler : value) :
  id ≠ id' →
  keymaps (add id keys handler w).2 !! id' = keymaps w !! id' ∧
  keymaps (remove id w).2 !! id' = keymaps w !! id'.
Proof.
  intros Hne. split.
  - rewrite (proj1 (add_map w id keys handler)).
    destruct (storable w id); [by apply lookup_insert_ne|done].
  - rewrite remove_map. by apply lookup_delete_ne.
Qed.

Lemma other_ids_untouched_witness :
  "b" ≠ "a" ∧
  keymaps (add "b" "ctrl+b" (VFunction "g") one_binding).2 !! "a"
    = Some (mkKeymap "a" "ctrl+a" (VFunction "f")) ∧
  keymaps (remove "b" one_binding).2 !! "a"
    = Some (mkKeymap "a" "ctrl+a" (VFunction "f")).
Proof.
  split; [discriminate|].
  destruct (other_ids_untouched one_binding "b" "a" "ctrl+b" (VFunction "g"))
    as [Hadd Hrem]; [discriminate|].
  rewrite Hadd, Hrem. split; reflexivity.
Defined.

(** X7. Round trips on the map, for an id that is not an inherited
    name.  On an initialised registry, [add] of an id that is not
    stored followed by [remove] of it gives back the map as it was;
    and [remove] of a stored binding followed by [add] with that
    binding's own id, keys and handler gives back the map as it
    was. *)
Theorem add_remove_round_trips (w : World) (id keys : string)
    (handler : value) :
  em w = true → inherited id = false →
  (keymaps w !! id = None →
     keymaps (remove id (add id keys handler w).2).2 = keymaps w) ∧
  (∀ km, keymaps w !! id = Some km → km_id km = id →
     keymaps (add id (km_keys km) (km_handler km) (remove id w).2).2
       = keymaps w).
Proof.
  intros Hem Hinh. split.
  - intros Hid. rewrite remove_map, (add_fresh _ _ _ _ Hem Hid Hinh). simpl.
    by apply delete_insert_id.
  - intros km Hid Hkm. rewrite (remove_present _ _ _ Hid). simpl.
    rewrite add_fresh; simpl; [|done|apply lookup_delete_eq|done].
    apply insert_delete_id. by destruct km; simplify_eq/=.
Qed.

Lemma add_remove_round_trips_witness :
  em one_binding = true ∧ inherited "b" = false ∧ inherited "a" = false ∧
  keymaps (remove "b" (add "b" "ctrl+b" (VFunction "g") one_binding).2).2
    = keymaps one_binding ∧
  keymaps (add "a" "ctrl+a" (VFunction "f") (remove "a" one_binding).2).2
    = keymaps one_binding.
Proof.
  split; [reflexivity|]. split; [reflexivity|]. split; [reflexivity|]. split.
  - apply (proj1 (add_remove_round_trips one_binding "b" "ctrl+b"
                    (VFunction "g") eq_refl eq_refl)).
    reflexivity.
  - apply (proj2 (add_remove_round_trips one_binding "a" "ctrl+a"
                    (VFunction "f") eq_refl eq_refl)
             (mkKeymap "a" "ctrl+a" (VFunction "f"))); reflexivity.
Defined.

(** X8. [add] calls for two different ids commute on the map: either
    order stores the same bindings, also when one of the calls, or
    both, throw.  (The engine keeps its subscriptions in the order of
    the calls.) *)
Theorem adds_of_different_ids_commute (w : World) (a b ka kb : string)
    (ha hb : value) :
  a ≠ b →
  keymaps (add b kb hb (add a ka ha w).2).2
    = keymaps (add a ka ha (add b kb hb w).2).2.
Proof.
  intros Hab.
  destruct (add_map w a ka ha) as [Ha Hema].
  destruct (add_map w b kb hb) as [Hb Hemb].
  destruct (add_map (add a ka ha w).2 b kb hb) as [Hab' _].
  destruct (add_map (add b kb hb w).2 a ka ha) as [Hba' _].
  assert (storable (add a ka ha w).2 b = storable w b) as Hsb.
  { unfold storable. rewrite Hema, Ha. do 2 f_equal.
    destruct (storable w a); [|done].
    apply bool_decide_ext. by rewrite lookup_insert_ne. }
  assert (storable (add b kb hb w).2 a = storable w a) as Hsa.
  { unfold storable. rewrite Hemb, Hb. do 2 f_equal.
    destruct (storable w b); [|done].
    apply bool_decide_ext. by rewrite lookup_insert_ne. }
  rewrite Hab', Hba', Hsb, Hsa, Ha, Hb.
  destruct (storable w a), (storable w b); try done.
  by apply insert_insert_ne.
Qed.

Lemma adds_of_different_ids_commute_witness :
  "a" ≠ "b" ∧
  keymaps (add "b" "ctrl+b" (VFunction "g")
             (add "a" "ctrl+a" (VFunction "f") initialised).2).2
    = keymaps (add "a" "ctrl+a" (VFunction "f")
                 (add "b" "ctrl+b" (VFunction "g") initialised).2).2.
Proof.
  split; [discriminate|].
  apply (adds_of_different_ids_commute initialised "a" "b" "ctrl+a" "ctrl+b"
           (VFunction "f") (VFunction "g")).
  discriminate.
Defined.

(** ** Subscriptions *)

(** A binding made by [add] on a well-formed registry owns exactly the
    subscription just bound. *)
Lemma add_owns_one w id keys handler :
  em w = true → inherited id = false → consistent w →
  subscriptions_of id (add id keys handler w).2
    = [(keys, mkCallback id handler)].
Proof.
  intros Hem Hinh Hw. unfold subscriptions_of.
  destruct (keymaps w !! id) as [pk|] eqn:Hid.
  - rewrite (add_supersede _ _ _ _ pk Hem Hid). simpl.
    rewrite filter_app, filter_none; [by rewrite filter_cons_True|].
    intros [chord cb] [Hne Hin]%list_elem_of_filter. simpl in *.
    by apply (survivor_not_owned w id pk chord cb).
  - rewrite (add_fresh _ _ _ _ Hem Hid Hinh). simpl.
    rewrite filter_app, filter_none; [by rewrite filter_cons_True|].
    intros [chord cb] Hin. simpl.
    by apply (absent_not_owned w id chord cb).
Qed.

(** X5. In a well-formed, initialised registry a binding made by [add]
    under an id that is not an inherited name owns exactly one
    subscription, the one bound last, under the given [keys] and with
    the handler as given. *)
Theorem add_owns_newest_subscription (w : World) (id keys : string)
    (handler : value) :
  em w = true → inherited id = false → consistent w →
  ∃ w',
    add id keys handler w = (Return (mkKeymap id keys handler), w') ∧
    subscriptions_of id w' = [(keys, mkCallback id handler)] ∧
    keymaster w' !! newest w' = Some (keys, mkCallback id handler).
Proof.
  intros Hem Hinh Hw.
  pose proof (add_owns_one w id keys handler Hem Hinh Hw) as Hone.
  destruct (add_installs w id keys handler Hem Hinh)
    as (w' & t & Hadd & _ & Hnew & _ & _).
  exists w'. rewrite Hadd in Hone. by split_and!.
Qed.

Lemma add_owns_newest_subscription_witness :
  em one_binding = true ∧ inherited "a" = false ∧
  ∃ w',
    add "a" "ctrl+z" (VString "core:undo") one_binding
      = (Return (mkKeymap "a" "ctrl+z" (VString "core:undo")), w') ∧
    subscriptions_of "a" w'
      = [("ctrl+z", mkCallback "a" (VString "core:undo"))].
Proof.
  split; [reflexivity|]. split; [reflexivity|].
  assert (consistent one_binding) as Hw.
  { apply add_consistent, initialised_consistent. }
  destruct (add_owns_newest_subscription one_binding "a" "ctrl+z"
              (VString "core:undo") eq_refl eq_refl Hw)
    as (w' & Hadd & Hone & _).
  exists w'. split; [exact Hadd|exact Hone].
Defined.

(** X6. [keymaster.unbind] works on the chord string, so removing a
    binding silences every binding that was added under the same
    chord string: for two different ids that are not inherited names,
    after [add a chord ha], [add b chord hb] and [remove a], the
    binding [b] is still stored and returned by [get], but the engine
    holds no subscription for it, nor any subscription under
    [chord]. *)
Theorem remove_silences_shared_chord (w : World) (a b chord : string)
    (ha hb : value) :
  em w = true → consistent w → a ≠ b →
  inherited a = false → inherited b = false →
  ∃ w1 w2 w3,
    add a chord ha w = (Return (mkKeymap a chord ha), w1) ∧
    add b chord hb w1 = (Return (mkKeymap b chord hb), w2) ∧
    subscriptions_of b w2 = [(chord, mkCallback b hb)] ∧
    remove a w2 = (Return (Some (mkKeymap a chord ha)), w3) ∧
    get b w3 = (Return (Some (FKeymap (mkKeymap b chord hb))), w3) ∧
    subscriptions_of b w3 = [] ∧
    (∀ s : Subscription, s ∈ keymaster w3 → s.1 ≠ chord).
Proof.
  intros Hem Hw Hab Hia Hib.
  destruct (add_returns w a chord ha Hem Hia)
    as (w1 & Hadd1 & _ & Hem1 & _ & Hmap1).
  assert (consistent w1) as Hw1.
  { pose proof (add_consistent a chord ha w Hw) as H. by rewrite Hadd1 in H. }
  destruct (add_returns w1 b chord hb Hem1 Hib)
    as (w2 & Hadd2 & _ & Hem2 & _ & Hmap2).
  assert (consistent w2) as Hw2.
  { pose proof (add_consistent b chord hb w1 Hw1) as H. by rewrite Hadd2 in H. }
  assert (keymaps w2 !! a = Some (mkKeymap a chord ha)) as Ha.
  { rewrite Hmap2, lookup_insert_ne, Hmap1 by done. apply lookup_insert_eq. }
  pose proof (remove_present w2 a _ Ha) as Hrem. rewrite Hem2 in Hrem.
  eexists w1, w2, _. split_and!; [done|done| |exact Hrem|..].
  - pose proof (add_owns_one w1 b chord hb Hem1 Hib Hw1) as H.
    by rewrite Hadd2 in H.
  - unfold get, gets.
    rewrite (property_own _ b (mkKeymap b chord hb)); [done|]. simpl.
    by rewrite lookup_delete_ne, Hmap2, lookup_insert_eq.
  - unfold subscriptions_of. simpl. apply filter_none.
    intros [chord' cb] [Hne Hin]%list_elem_of_filter Hb. simpl in *.
    destruct (subscription_bound w2 Hw2 chord' cb Hin) as (km & Hkm & Hk).
    rewrite Hb, Hmap2, lookup_insert_eq in Hkm. injection Hkm as <-.
    by simpl in Hk.
  - simpl. by intros s [Hne _]%list_elem_of_filter.
Qed.

Lemma remove_silences_shared_chord_witness :
  em initialised = true ∧ "a" ≠ "b" ∧
  inherited "a" = false ∧ inherited "b" = false ∧
  ∃ w1 w2 w3,
    add "a" "ctrl+a" (VFunction "f") initialised
      = (Return (mkKeymap "a" "ctrl+a" (VFunction "f")), w1) ∧
    add "b" "ctrl+a" (VFunction "g") w1
      = (Return (mkKeymap "b" "ctrl+a" (VFunction "g")), w2) ∧
    remove "a" w2
      = (Return (Some (mkKeymap "a" "ctrl+a" (VFunction "f"))), w3) ∧
    get "b" w3
      = (Return (Some (FKeymap (mkKeymap "b" "ctrl+a" (VFunction "g")))),
         w3) ∧
    subscriptions_of "b" w3 = [].
Proof.
  split; [reflexivity|]. split; [discriminate|].
  split; [reflexivity|]. split; [reflexivity|].
  destruct (remove_silences_shared_chord initialised "a" "b" "ctrl+a"
              (VFunction "f") (VFunction "g") eq_refl initialised_consistent)
    as (w1 & w2 & w3 & Hadd1 & Hadd2 & _ & Hrem & Hget & Hnone & _);
    [discriminate|reflexivity|reflexivity|].
  exists w1, w2, w3. by split_and!.
Defined.

(** ** Configuration and [onLoad] *)

Lemma add_each_as_calls d : add_each d = add_all (default_calls d).
Proof. induction d as [|[id v] d IH]; simpl; by rewrite ?IH. Qed.

Lemma ordinary_default_calls d :
  ordinary_defaults d → ordinary_calls (default_calls d).
Proof.
  unfold ordinary_defaults, ordinary_calls, default_calls.
  intros Hd. by apply Forall_fmap.
Qed.

(** X10. The caller's [defaults] replace the built-in ones as a whole.
    After [init] with the host's editor model and a [defaults] object
    [d] none of whose ids is an inherited name, [getConfig] returns a
    configuration whose [defaults] is [d], [onLoad] returns, and the
    map holds under every id the binding of the last entry of [d] for
    that id; an id without entry in [d], a built-in one included, is
    as it was before [onLoad]. *)
Theorem caller_defaults_replace_builtin (w : World)
    (d : list (string * DefaultKeymap)) :
  ordinary_defaults d →
  ∃ w1 w2,
    init (mkOpts true (Some d)) w = (Return tt, w1) ∧
    getConfig w1 = (Return (Some (mkConfig d true)), w1) ∧
    onLoad w1 = (Return tt, w2) ∧
    ∀ id, keymaps w2 !! id =
            match last_add id (default_calls d) with
            | Some c => Some (mkKeymap id (call_keys c) (call_handler c))
            | None => keymaps w !! id
            end.
Proof.
  intros Hd.
  destruct (add_all_returns (default_calls d)
              (init (mkOpts true (Some d)) w).2 eq_refl
              (ordinary_default_calls d Hd))
    as (w2 & Hrun & _ & Hlast).
  exists (init (mkOpts true (Some d)) w).2, w2.
  split_and!; [done|done| |exact Hlast].
  unfold onLoad, bind, gets. simpl. by rewrite add_each_as_calls.
Qed.

Lemma caller_defaults_replace_builtin_witness :
  ordinary_defaults caller_defaults ∧
  ∃ w2,
    onLoad (init (mkOpts true (Some caller_defaults)) (create (mkEm ∅ 0))).2
      = (Return tt, w2) ∧
    keymaps w2 !! "ns:open"
      = Some (mkKeymap "ns:open" "⌘+o, ctrl+o" (VFunction "open")) ∧
    keymaps w2 !! "core:undo" = None.
Proof.
  assert (ordinary_defaults caller_defaults) as Hd.
  { repeat constructor. }
  split; [exact Hd|].
  destruct (caller_defaults_replace_builtin (create (mkEm ∅ 0))
              caller_defaults Hd) as (w1 & w2 & Hinit & _ & Hload & Hmap).
  exists w2. injection Hinit as <-. split_and!; [exact Hload|..].
  - exact (Hmap "ns:open").
  - exact (Hmap "core:undo").
Defined.

Lemma add_each_fresh d w :
  em w = true →
  ordinary_defaults d →
  NoDup d.*1 →
  (∀ id, id ∈ d.*1 → keymaps w !! id = None) →
  ∃ w',
    add_each d w = (Return tt, w') ∧
    keymaps w' =
      list_to_map ((λ p, (p.1, default_keymap p)) <$> d) ∪ keymaps w ∧
    keymaster w' = keymaster w ++ (default_subscription <$> d) ∧
    trace w' = trace w ++ flat_map default_effects d.
Proof.
  revert w. induction d as [|[id v] d IH]; intros w Hem Hord Hnd Hfresh.
  { exists w. simpl. by rewrite (left_id_L ∅ (∪)), !app_nil_r. }
  apply Forall_cons in Hord as [Hinh Hord]. simpl in Hinh.
  rewrite fmap_cons in Hnd, Hfresh. simpl in Hnd, Hfresh.
  apply NoDup_cons in Hnd as [Hid Hnd].
  assert (keymaps w !! id = None) as Hnone by (apply Hfresh; left).
  destruct (IH (add id (def_keys v) (def_handler v) w).2) as
    (w' & Hrun & Hmap & Hsubs & Htrace).
  { by rewrite add_fresh. }
  { done. }
  { done. }
  { intros id' Hin. rewrite add_fresh by done. simpl.
    rewrite lookup_insert_ne; [apply Hfresh; by right|].
    by intros ->. }
  exists w'. rewrite add_fresh in Hrun, Hmap, Hsubs, Htrace by done.
  simpl in *. split_and!.
  - unfold bind. by rewrite add_fresh.
  - rewrite Hmap, <- insert_union_l. symmetry. apply insert_union_r.
    apply not_elem_of_list_to_map_1. by rewrite <- list_fmap_compose.
  - by rewrite Hsubs, <- app_assoc.
  - by rewrite Htrace, <- app_assoc.
Qed.

(** X11. On an initialised registry whose configured [defaults] have
    pairwise different ids, none of them an inherited name and none
    stored yet, [onLoad] returns and installs one binding per entry:
    the map gains exactly these bindings, the engine gains one
    subscription per entry, in the order of the entries, and each
    [add] only binds and emits [keymap:add]; nothing is unbound and no
    [keymap:remove] is sent. *)
Theorem onLoad_installs_in_order (w : World) (c : Config) :
  em w = true →
  config w = Some c →
  ordinary_defaults (defaults c) →
  NoDup (defaults c).*1 →
  (∀ id, id ∈ (defaults c).*1 → keymaps w !! id = None) →
  ∃ w',
    onLoad w = (Return tt, w') ∧
    keymaps w' =
      list_to_map ((λ p, (p.1, default_keymap p)) <$> defaults c)
        ∪ keymaps w ∧
    keymaster w' = keymaster w ++ (default_subscription <$> defaults c) ∧
    trace w' = trace w ++ flat_map default_effects (defaults c).
Proof.
  intros Hem Hc Hord Hnd Hfresh.
  destruct (add_each_fresh (defaults c) w Hem Hord Hnd Hfresh)
    as (w' & Hrun & Hrest).
  exists w'. split; [|done].
  unfold onLoad, bind, gets. by rewrite Hc.
Qed.

Lemma onLoad_installs_in_order_witness :
  ∃ w',
    onLoad (init (mkOpts true (Some caller_defaults)) one_binding).2
      = (Return tt, w') ∧
    keymaster w' =
      [("ctrl+a", mkCallback "a" (VFunction "f"));
       ("⌘+s, ctrl+s", mkCallback "ns:save" (VString "ns:save"));
       ("⌘+o, ctrl+o", mkCallback "ns:open" (VFunction "open"))].
Proof.
  destruct (onLoad_installs_in_order
              (init (mkOpts true (Some caller_defaults)) one_binding).2
              (mkConfig caller_defaults true) eq_refl eq_refl)
    as (w' & Hrun & _ & Hsubs & _).
  - repeat constructor.
  - apply (bool_decide_unpack _). vm_compute. exact I.
  - intros id Hin.
    repeat (apply elem_of_cons in Hin as [->|Hin]; [reflexivity|]).
    by apply elem_of_nil in Hin.
  - exists w'. split; [exact Hrun|exact Hsubs].
Defined.

(** ** Firings *)

(** X12. A firing whose handler cannot be run throws a TypeError
    before anything reaches the event bus: this is the case of a
    [null] or [undefined] handler and of a command id for which the
    registry has no callable or run-capable command.  The map is
    unchanged; the callback keeps what it resolved. *)
Theorem firing_unrunnable_throws (B : Handlers) (w : World) (i : nat)
    (chord : string) (cb : Callback) (e : KeyEvent) (h : MatchInfo) :
  keymaster w !! i = Some (chord, cb) →
  invocation (resolve w (cb_handler cb)) (Editor (host w)) = None →
  ∃ w',
    invoke B i e h w = (Throw TypeError, w') ∧
    trace w' = trace w ++ lookups (cb_handler cb) ∧
    events (trace w') = events (trace w) ∧
    keymaps w' = keymaps w ∧
    keymaster w' !! i
      = Some (chord, mkCallback (cb_id cb) (resolve w (cb_handler cb))).
Proof.
  intros Hi Hrun. eexists. split; [by apply (invoke_throws _ _ _ chord cb)|].
  simpl. split_and!; [done| |done|].
  - rewrite events_app.
    assert (events (lookups (cb_handler cb)) = []) as ->
      by (by destruct (cb_handler cb)).
    apply app_nil_r.
  - apply list_lookup_insert_eq. by apply lookup_lt_Some in Hi.
Qed.

Lemma firing_unrunnable_throws_witness :
  ∃ w',
    invoke quiet 0 1 (mkMatch "ctrl+a")
      (add "a" "ctrl+a" VNull initialised).2 = (Throw TypeError, w') ∧
    events (trace w') = events (trace (add "a" "ctrl+a" VNull initialised).2).
Proof.
  destruct (firing_unrunnable_throws quiet
              (add "a" "ctrl+a" VNull initialised).2
              0 "ctrl+a" (mkCallback "a" VNull) 1 (mkMatch "ctrl+a")
              eq_refl eq_refl)
    as (w' & Hfire & _ & Hev & _).
  exists w'. split; [exact Hfire|exact Hev].
Defined.

(** X13. A firing made while the command id of a binding is not
    registered leaves [undefined] in the callback for good: it throws,
    and every later firing of that subscription throws again without
    looking the id up and without changing anything, whatever the
    command registry holds by then. *)
Theorem unresolved_firing_sticks (B : Handlers) (w : World) (i : nat)
    (chord id c : string) (e : KeyEvent) (h : MatchInfo) :
  keymaster w !! i = Some (chord, mkCallback id (VString c)) →
  Commands (host w) !! c = None →
  ∃ w1,
    invoke B i e h w = (Throw TypeError, w1) ∧
    keymaster w1 !! i = Some (chord, mkCallback id VUndefined) ∧
    ∀ cmds e' h',
      invoke B i e' h' (with_commands cmds w1)
        = (Throw TypeError, with_commands cmds w1).
Proof.
  intros Hi Hc.
  assert (i < length (keymaster w))%nat as Hlt by (by apply lookup_lt_Some in Hi).
  pose proof (invoke_throws B w i chord (mkCallback id (VString c)) e h Hi)
    as Hfire.
  simpl in Hfire. rewrite Hc in Hfire. specialize (Hfire eq_refl).
  eexists. split; [exact Hfire|]. simpl. split.
  - by apply list_lookup_insert_eq.
  - intros cmds e' h'.
    erewrite (invoke_throws B _ i chord (mkCallback id VUndefined) e' h').
    + unfold with_commands, set_host. simpl.
      by rewrite list_insert_insert_eq, app_nil_r.
    + simpl. by apply list_lookup_insert_eq.
    + done.
Qed.

Lemma unresolved_firing_sticks_witness :
  ∃ w1,
    invoke quiet 0 1 (mkMatch "ctrl+z") undo_unregistered
      = (Throw TypeError, w1) ∧
    invoke quiet 0 2 (mkMatch "ctrl+z")
      (with_commands {["core:undo" := VObject "undo"]} w1)
      = (Throw TypeError,
         with_commands {["core:undo" := VObject "undo"]} w1).
Proof.
  destruct (unresolved_firing_sticks quiet undo_unregistered 0 "⌘+z, ctrl+z"
              "core:undo" "core:undo" 1 (mkMatch "ctrl+z")
              eq_refl eq_refl)
    as (w1 & Hfire & _ & Hstick).
  exists w1. split; [exact Hfire|apply Hstick].
Defined.

(** ** Ids that are not inherited names *)

(** X16. After any sequence of [add] calls on an initialised registry,
    none of them naming an inherited name, the map returned by
    [getAll] holds, under every id the sequence names, the binding
    made by the most recent [add] of that id, and leaves the other ids
    as they were; in a well-formed registry no two stored bindings
    have the same id and the listening engine holds at most one
    subscription per id.  An [add] of a stored id that is not an
    inherited name first runs [remove] on it, which deletes the map
    entry and unbinds the prior chord string, and then installs the
    new binding. *)
Theorem add_sequence_last_wins (w : World) (calls : list AddCall) :
  em w = true →
  ordinary_calls calls →
  ∃ m w',
    add_all calls w = (Return tt, w') ∧
    getAll w' = (Return m, w') ∧
    (∀ id, m !! id =
             match last_add id calls with
             | Some c => Some (mkKeymap id (call_keys c) (call_handler c))
             | None => keymaps w !! id
             end) ∧
    (consistent w →
       (∀ id1 id2 km1 km2,
          m !! id1 = Some km1 → m !! id2 = Some km2 →
          km_id km1 = km_id km2 → id1 = id2 ∧ km1 = km2) ∧
       (∀ id, (length (subscriptions_of id w') ≤ 1)%nat)) ∧
    (∀ id keys handler pk,
       keymaps w !! id = Some pk → inherited id = false →
       ∃ w1,
         remove id w = (Return (Some pk), w1) ∧
         keymaps w1 !! id = None ∧
         (∀ s : Subscription, s ∈ keymaster w1 → s.1 ≠ km_keys pk) ∧
         add id keys handler w = add id keys handler w1).
Proof.
  intros Hem Hord.
  destruct (add_all_returns calls w Hem Hord) as (w' & Hrun & Hem' & Hlast).
  exists (keymaps w'), w'. split_and!; [done|done|done| |].
  - intros Hw.
    assert (consistent w') as Hw'.
    { pose proof (add_all_consistent calls w Hw) as H. by rewrite Hrun in H. }
    split.
    + intros id1 id2 km1 km2 H1 H2 Heq.
      pose proof (stored_under_id w' Hw' _ _ H1).
      pose proof (stored_under_id w' Hw' _ _ H2).
      assert (id1 = id2) as -> by congruence.
      split; [done|congruence].
    + intros id. apply owner_at_most_one, (subscription_unique w' Hw').
  - intros id keys handler pk Hid Hinh. eexists. split_and!.
    + by apply remove_present.
    + simpl. apply lookup_delete_eq.
    + simpl. by intros s [Hne _]%list_elem_of_filter.
    + rewrite (add_supersede _ _ _ _ pk Hem Hid), Hem.
      rewrite add_fresh; simpl;
        [by rewrite <- app_assoc|done|apply lookup_delete_eq|done].
Qed.

Lemma add_sequence_last_wins_witness :
  em initialised = true ∧
  ordinary_calls [mkAdd "x" "ctrl+a" (VFunction "f");
                  mkAdd "y" "ctrl+b" (VFunction "g");
                  mkAdd "x" "ctrl+c" (VString "cmd")] ∧
  (add_all [mkAdd "x" "ctrl+a" (VFunction "f");
            mkAdd "y" "ctrl+b" (VFunction "g");
            mkAdd "x" "ctrl+c" (VString "cmd")] initialised).1 = Return tt ∧
  keymaps (add_all [mkAdd "x" "ctrl+a" (VFunction "f");
                    mkAdd "y" "ctrl+b" (VFunction "g");
                    mkAdd "x" "ctrl+c" (VString "cmd")] initialised).2 !! "x"
    = Some (mkKeymap "x" "ctrl+c" (VString "cmd")).
Proof.
  assert (ordinary_calls [mkAdd "x" "ctrl+a" (VFunction "f");
                          mkAdd "y" "ctrl+b" (VFunction "g");
                          mkAdd "x" "ctrl+c" (VString "cmd")]) as Hord.
  { repeat constructor. }
  split; [reflexivity|]. split; [exact Hord|].
  destruct (add_sequence_last_wins initialised
              [mkAdd "x" "ctrl+a" (VFunction "f");
               mkAdd "y" "ctrl+b" (VFunction "g");
               mkAdd "x" "ctrl+c" (VString "cmd")] eq_refl Hord)
    as (m & w' & Hrun & Hall & Hlast & _).
  rewrite Hrun. split; [reflexivity|].
  injection Hall as <-. exact (Hlast "x").
Defined.

(** X17. On an initialised registry, for an id [x] that is not an
    inherited name, [add x k1 h1] followed by [add x k2 h2] is accepted
    both times, [get x] then returns the binding
    [{id: x, keys: k2, handler: h2}], the listening engine holds the
    new subscription for [k2], and the only subscription it can still
    hold under [k1] is that new one (so none when [k1] and [k2]
    differ); in a well-formed registry the new subscription is the
    only one that belongs to [x]. *)
Theorem add_twice_supersedes (w : World) (x k1 k2 : string) (h1 h2 : value) :
  em w = true →
  inherited x = false →
  ∃ w1 w2,
    add x k1 h1 w = (Return (mkKeymap x k1 h1), w1) ∧
    add x k2 h2 w1 = (Return (mkKeymap x k2 h2), w2) ∧
    get x w2 = (Return (Some (FKeymap (mkKeymap x k2 h2))), w2) ∧
    (k2, mkCallback x h2) ∈ keymaster w2 ∧
    (∀ s : Subscription,
       s ∈ keymaster w2 → s.1 = k1 → k1 = k2 ∧ s = (k2, mkCallback x h2)) ∧
    (consistent w → subscriptions_of x w2 = [(k2, mkCallback x h2)]).
Proof.
  intros Hem Hinh.
  destruct (add_returns w x k1 h1 Hem Hinh)
    as (w1 & Hadd1 & _ & Hem1 & _ & Hmap1).
  assert (keymaps w1 !! x = Some (mkKeymap x k1 h1)) as Hx1.
  { rewrite Hmap1. apply lookup_insert_eq. }
  pose proof (add_supersede w1 x k2 h2 _ Hem1 Hx1) as Hadd2. simpl in Hadd2.
  eexists w1, _. split_and!; [done|exact Hadd2|..].
  - unfold get, gets.
    rewrite (property_own _ x (mkKeymap x k2 h2)); [done|]. simpl.
    by rewrite insert_delete_eq, lookup_insert_eq.
  - simpl. apply elem_of_app. right. by left.
  - simpl. intros s [[Hne _]%list_elem_of_filter|Hs]%elem_of_app Hk;
      [done|].
    apply list_elem_of_singleton in Hs as ->. by simpl in Hk.
  - intros Hw. unfold subscriptions_of. simpl.
    rewrite filter_app, filter_none; [by rewrite filter_cons_True|].
    intros [chord cb] [Hne Hin]%list_elem_of_filter. simpl in *.
    assert (consistent w1) as Hw1.
    { pose proof (add_consistent x k1 h1 w Hw) as H. by rewrite Hadd1 in H. }
    by apply (survivor_not_owned w1 x (mkKeymap x k1 h1) chord cb).
Qed.

Lemma add_twice_supersedes_witness :
  em initialised = true ∧ inherited "x" = false ∧
  ∃ w1 w2,
    add "x" "ctrl+a" (VFunction "f") initialised
      = (Return (mkKeymap "x" "ctrl+a" (VFunction "f")), w1) ∧
    add "x" "ctrl+b" (VFunction "g") w1
      = (Return (mkKeymap "x" "ctrl+b" (VFunction "g")), w2) ∧
    get "x" w2
      = (Return (Some (FKeymap (mkKeymap "x" "ctrl+b" (VFunction "g")))),
         w2) ∧
    subscriptions_of "x" w2 = [("ctrl+b", mkCallback "x" (VFunction "g"))].
Proof.
  split; [reflexivity|]. split; [reflexivity|].
  destruct (add_twice_supersedes initialised "x" "ctrl+a" "ctrl+b"
              (VFunction "f") (VFunction "g") eq_refl eq_refl)
    as (w1 & w2 & Hadd1 & Hadd2 & Hget & _ & _ & Hsubs).
  exists w1, w2. split_and!; [done|done|done|].
  apply Hsubs, initialised_consistent.
Defined.

(** X18. On an initialised registry, for an id that is not an
    inherited name, [add id keys h] immediately followed by
    [remove id] returns the binding just added, leaves the map
    returned by [getAll] without the key [id], and leaves the
    listening engine without any subscription under [keys]; the
    unbind made by [remove] names the [keys] string of the binding
    read from the map, not the id. *)
Theorem add_then_remove (w : World) (id keys : string) (handler : value) :
  em w = true →
  inherited id = false →
  ∃ w1 w2 m,
    add id keys handler w = (Return (mkKeymap id keys handler), w1) ∧
    keymaps w1 !! id = Some (mkKeymap id keys handler) ∧
    remove id w1 = (Return (Some (mkKeymap id keys handler)), w2) ∧
    getAll w2 = (Return m, w2) ∧
    m !! id = None ∧
    (∀ s : Subscription, s ∈ keymaster w2 → s.1 ≠ keys) ∧
    trace w2 =
      trace w1 ++ [Unbind (km_keys (mkKeymap id keys handler));
                   Trigger "keymap:remove"
                     [AKeymap (mkKeymap id keys handler)]].
Proof.
  intros Hem Hinh.
  destruct (add_returns w id keys handler Hem Hinh)
    as (w1 & Hadd & _ & Hem1 & _ & Hmap1).
  assert (keymaps w1 !! id = Some (mkKeymap id keys handler)) as Hid.
  { rewrite Hmap1. apply lookup_insert_eq. }
  pose proof (remove_present w1 id _ Hid) as Hrem. rewrite Hem1 in Hrem.
  eexists w1, _, _. split_and!; [done|done|exact Hrem|done|..]; simpl.
  - apply lookup_delete_eq.
  - by intros s [Hne _]%list_elem_of_filter.
  - done.
Qed.

Lemma add_then_remove_witness :
  em initialised = true ∧ inherited "a" = false ∧
  ∃ w1 w2,
    add "a" "ctrl+a" (VFunction "f") initialised
      = (Return (mkKeymap "a" "ctrl+a" (VFunction "f")), w1) ∧
    remove "a" w1 = (Return (Some (mkKeymap "a" "ctrl+a" (VFunction "f"))), w2) ∧
    keymaps w2 !! "a" = None ∧
    trace w2 =
      trace w1 ++ [Unbind "ctrl+a";
                   Trigger "keymap:remove"
                     [AKeymap (mkKeymap "a" "ctrl+a" (VFunction "f"))]].
Proof.
  split; [reflexivity|]. split; [reflexivity|].
  destruct (add_then_remove initialised "a" "ctrl+a" (VFunction "f")
              eq_refl eq_refl)
    as (w1 & w2 & m & Hadd & _ & Hrem & Hall & Hm & _ & Htrace).
  exists w1, w2. split_and!; [done|done| |done].
  injection Hall as <-. exact Hm.
Defined.

(** X19. On an initialised registry, for an id that is not an
    inherited name, [add id keys handler] stores the binding
    [{id, keys, handler}] under [id], returns that binding, and emits
    exactly one [keymap:add] event, whose payload is that binding. *)
Theorem add_stores_emits_returns (w : World) (id keys : string)
    (handler : value) :
  em w = true →
  inherited id = false →
  ∃ w',
    add id keys handler w = (Return (mkKeymap id keys handler), w') ∧
    get id w' = (Return (Some (FKeymap (mkKeymap id keys handler))), w') ∧
    payloads "keymap:add" (trace w') =
      payloads "keymap:add" (trace w)
        ++ [[AKeymap (mkKeymap id keys handler)]].
Proof.
  intros Hem Hinh. destruct (keymaps w !! id) as [pk|] eqn:Hid.
  - eexists. split_and!; [by apply (add_supersede _ _ _ _ pk)|..].
    + unfold get, gets.
      rewrite (property_own _ id (mkKeymap id keys handler)); [done|].
      simpl. by rewrite lookup_insert_eq.
    + simpl. by rewrite payloads_app.
  - eexists. split_and!; [by apply add_fresh|..].
    + unfold get, gets.
      rewrite (property_own _ id (mkKeymap id keys handler)); [done|].
      simpl. by rewrite lookup_insert_eq.
    + simpl. by rewrite payloads_app.
Qed.

Lemma add_stores_emits_returns_witness :
  em initialised = true ∧ inherited "a" = false ∧
  ∃ w',
    add "a" "ctrl+a" (VFunction "f") initialised
      = (Return (mkKeymap "a" "ctrl+a" (VFunction "f")), w') ∧
    payloads "keymap:add" (trace w')
      = [[AKeymap (mkKeymap "a" "ctrl+a" (VFunction "f"))]].
Proof.
  split; [reflexivity|]. split; [reflexivity|].
  destruct (add_stores_emits_returns initialised "a" "ctrl+a"
              (VFunction "f") eq_refl eq_refl) as (w' & Hadd & _ & Hpay).
  exists w'. split; [done|]. exact Hpay.
Defined.

(** X20. On an initialised registry, an [add] that supersedes the
    binding [pk] stored under the same id sends the event bus
    [keymap:remove] with [pk] and then [keymap:add] with the new
    binding; an [add] of an id that is neither stored nor an inherited
    name sends [keymap:add] only. *)
Theorem add_notifications (w : World) (id keys : string) (handler : value) :
  em w = true →
  (∀ pk, keymaps w !! id = Some pk →
     events (trace (add id keys handler w).2) =
       events (trace w)
         ++ [("keymap:remove", [AKeymap pk]);
             ("keymap:add", [AKeymap (mkKeymap id keys handler)])]) ∧
  (keymaps w !! id = None → inherited id = false →
     events (trace (add id keys handler w).2) =
       events (trace w)
         ++ [("keymap:add", [AKeymap (mkKeymap id keys handler)])]).
Proof.
  intros Hem. split.
  - intros pk Hid. rewrite (add_supersede _ _ _ _ pk Hem Hid). simpl.
    by rewrite events_app.
  - intros Hid Hinh. rewrite (add_fresh _ _ _ _ Hem Hid Hinh). simpl.
    by rewrite events_app.
Qed.

Lemma add_notifications_witness :
  em initialised = true ∧
  events (trace (add "a" "ctrl+a" (VFunction "f") initialised).2)
    = [("keymap:add", [AKeymap (mkKeymap "a" "ctrl+a" (VFunction "f"))])] ∧
  events (trace (add "a" "ctrl+b" (VFunction "g")
                   (add "a" "ctrl+a" (VFunction "f") initialised).2).2)
    = [("keymap:add", [AKeymap (mkKeymap "a" "ctrl+a" (VFunction "f"))]);
       ("keymap:remove", [AKeymap (mkKeymap "a" "ctrl+a" (VFunction "f"))]);
       ("keymap:add", [AKeymap (mkKeymap "a" "ctrl+b" (VFunction "g"))])].
Proof.
  split; [reflexivity|]. split.
  - apply (proj2 (add_notifications initialised "a" "ctrl+a"
                    (VFunction "f") eq_refl)); reflexivity.
  - apply (proj1 (add_notifications
                    (add "a" "ctrl+a" (VFunction "f") initialised).2
                    "a" "ctrl+b" (VFunction "g") eq_refl)
             (mkKeymap "a" "ctrl+a" (VFunction "f"))).
    reflexivity.
Defined.

(** X21. On an initialised registry, for an id that is not an
    inherited name: [add id keys c], with [c] a command id, makes no
    lookup in the command registry and binds the callback with the
    string unresolved.  If a callable or run-capable command [v] is
    registered under [c] afterwards and the subscription has not
    fired in between, its firing looks [c] up, invokes [v], and goes
    on as the code of [v] decides: the two events after a return, the
    exception after a throw. *)
Theorem first_firing_resolves (B : Handlers) (w : World)
    (id keys c : string) (v : value) (eff : Effect) (e : KeyEvent)
    (h : MatchInfo) :
  em w = true →
  inherited id = false →
  invocation v (Editor (host w)) = Some eff →
  ∃ w1 t,
    add id keys (VString c) w = (Return (mkKeymap id keys (VString c)), w1) ∧
    trace w1 = trace w ++ t ∧ (∀ name, CmdGet name ∉ t) ∧
    keymaster (register_command c v w1) !! newest w1
      = Some (keys, mkCallback id (VString c)) ∧
    trace (entered (register_command c v w1) (newest w1) keys
             (mkCallback id (VString c)) eff)
      = trace w1 ++ [CmdGet c; eff] ∧
    invoke B (newest w1) e h (register_command c v w1)
      = after_handler id e h
          (B v (entered (register_command c v w1) (newest w1) keys
                  (mkCallback id (VString c)) eff)).
Proof.
  intros Hem Hinh Hv.
  destruct (add_installs w id keys (VString c) Hem Hinh)
    as (w1 & t & Hadd & Hhost & Hnew & Htrace & Ht).
  assert (resolve (register_command c v w1) (VString c) = v) as Hres.
  { simpl. by rewrite lookup_insert_eq. }
  exists w1, t. split_and!; [done|done|done|exact Hnew|done|].
  rewrite (invoke_runs B (register_command c v w1) (newest w1) keys
             (mkCallback id (VString c)) e h eff Hnew).
  - simpl cb_handler. simpl cb_id. by rewrite Hres.
  - simpl cb_handler. rewrite Hres. simpl. by rewrite Hhost.
Qed.

Lemma first_firing_resolves_witness :
  em initialised = true ∧ inherited "b" = false ∧
  ∃ w1 w3,
    add "b" "⌘+b, ctrl+b" (VString "cmd:foo") initialised
      = (Return (mkKeymap "b" "⌘+b, ctrl+b" (VString "cmd:foo")), w1) ∧
    invoke quiet (newest w1) 7 (mkMatch "ctrl+b")
      (register_command "cmd:foo" (VObject "foo") w1) = (Return tt, w3) ∧
    trace w3 =
      trace w1 ++
      [CmdGet "cmd:foo";
       Run "foo" 0;
       Trigger "keymap:emit" [AString "b"; AString "ctrl+b"; AEvent 7];
       Trigger "keymap:emit:b" [AString "b"; AString "ctrl+b"; AEvent 7]].
Proof.
  split; [reflexivity|]. split; [reflexivity|].
  destruct (first_firing_resolves quiet initialised "b" "⌘+b, ctrl+b"
              "cmd:foo" (VObject "foo") (Run "foo" 0) 7 (mkMatch "ctrl+b")
              eq_refl eq_refl eq_refl)
    as (w1 & t & Hadd & _ & _ & _ & Htrace & Hfire).
  exists w1. eexists. split; [exact Hadd|]. split.
  - rewrite Hfire. reflexivity.
  - unfold set_trace. cbn [trace]. rewrite Htrace. by rewrite <- app_assoc.
Defined.

End Keymaps.
